(** * hssl (xfuse): utilities, checkpointing and patch extraction

    A shallow embedding of the parts of the [hssl] package that its
    specification makes claims about:

    - [zip_dicts], [to_device], [with_interrupt_handler] and
      [design_matrix_from] of [hssl/utility/utility.py];
    - [store_state] and [restore_state] of [hssl/__main__.py];
    - [Slide.__getitem__] of [hssl/data/slide/slide.py].

    Python exceptions are modelled by the type [exn] and a function that
    may raise returns a [result]. Code that mutates objects threads the
    mutated objects explicitly, so that the state left behind by a call
    that raises is part of its outcome. *)

From Stdlib Require Import ZArith Lia.
From stdpp Require Import base option list strings gmap sorting.

Set Warnings "-register-all".

Local Open Scope string_scope.
Local Open Scope list_scope.
Local Open Scope Z_scope.

(** ** Exceptions and results *)

Inductive exn : Type :=
| StopIteration
| KeyError (key : string)
| AttributeError
| ValueError (msg : string)
| IndexError
| ZeroDivisionError
| FileNotFoundError
| TypeError
| RuntimeError (msg : string).

Inductive result (A : Type) : Type :=
| Ok (a : A)
| Raise (e : exn).
Arguments Ok {A} a.
Arguments Raise {A} e.

#[global] Instance exn_eq_dec : EqDecision exn.
Proof. solve_decision. Defined.

#[global] Instance result_ret : MRet result := fun _ a => Ok a.
#[global] Instance result_bind : MBind result := fun _ _ f r =>
  match r with
  | Ok a => f a
  | Raise e => Raise e
  end.

(** [try: body except handler], where [handler e = None] stands for an
    [except] clause that does not match [e]. *)
Definition try_except {A} (body : result A) (handler : exn → option (result A))
  : result A :=
  match body with
  | Ok a => Ok a
  | Raise e => default (Raise e) (handler e)
  end.

Definition is_Ok {A} (r : result A) : bool :=
  match r with Ok _ => true | Raise _ => false end.

(** Left-to-right monadic fold: a [for] loop whose body may raise. *)
Fixpoint for_each {A B} (body : A → B → result A) (acc : A) (xs : list B)
  : result A :=
  match xs with
  | [] => Ok acc
  | x :: xs' => acc' ← body acc x; for_each body acc' xs'
  end.

(** ** Python dictionaries

    A [dict] keeps its keys in insertion order; it is modelled as an
    association list whose keys are pairwise distinct. *)
Module PyDict.
Section Dict.
Context {V : Type}.

Definition t := list (string * V).

Definition keys (d : t) : list string := d.*1.

Definition wf (d : t) : Prop := NoDup (keys d).

Fixpoint get (d : t) (k : string) : option V :=
  match d with
  | [] => None
  | (k', v) :: d' => if decide (k' = k) then Some v else get d' k
  end.

(** [d[k] = v]: overwrite in place, or append a new key. *)
Fixpoint set (d : t) (k : string) (v : V) : t :=
  match d with
  | [] => [(k, v)]
  | (k', v') :: d' =>
      if decide (k' = k) then (k', v) :: d' else (k', v') :: set d' k v
  end.

(** [d[k]] as an expression. *)
Definition getitem (d : t) (k : string) : result V :=
  match get d k with
  | Some v => Ok v
  | None => Raise (KeyError k)
  end.
End Dict.
Arguments t : clear implicits.
End PyDict.

(** ** [zip_dicts] (utility.py 52-61, __main__.py 27-36) *)
Section ZipDicts.
Context {V : Type}.

(** [d[k].append(v)]: the lookup raises [KeyError] on an absent key; the
    values of [d] are lists, so [.append] itself always succeeds and
    mutates the list stored under [k]. *)
Definition append_at (d : PyDict.t (list V)) (k : string) (v : V)
  : result (PyDict.t (list V)) :=
  l ← PyDict.getitem d k; Ok (PyDict.set d k (l ++ [v])).

Definition zip_dicts_item (d : PyDict.t (list V)) (kv : string * V)
  : result (PyDict.t (list V)) :=
  try_except (append_at d kv.1 kv.2)
    (λ e, match e with
          | AttributeError => Some (Raise (ValueError "dict keys are inconsistent"))
          | _ => None
          end).

(** [ds] is the iterator handed to [zip_dicts], as the list of the items
    it still yields. *)
Definition zip_dicts (ds : list (PyDict.t V)) : result (PyDict.t (list V)) :=
  match ds with
  | [] => Raise StopIteration
  | d0 :: ds' =>
      let d := foldl (λ d k, PyDict.set d k []) [] (PyDict.keys d0) in
      for_each (λ d d_, for_each zip_dicts_item d d_) d (d0 :: ds')
  end.
End ZipDicts.

(** ** [to_device] (utility.py 299-307) *)
Inductive device : Type := CPU | CUDA (index : nat).

(** The Python values [to_device] can be handed: tensors, lists, dicts and
    everything else (tuples, numbers, strings, [None]). *)
Inductive pyobj : Type :=
| Tensor (data : list Z) (dev : device)
| PyList (xs : list pyobj)
| PyDictObj (kvs : list (string * pyobj))
| PyTuple (xs : list pyobj)
| PyInt (n : Z)
| PyStr (s : string)
| PyNone.

Definition is_tensor (x : pyobj) : bool :=
  match x with Tensor _ _ => true | _ => false end.
Definition is_list (x : pyobj) : bool :=
  match x with PyList _ => true | _ => false end.
Definition is_dict (x : pyobj) : bool :=
  match x with PyDictObj _ => true | _ => false end.

Section ToDevice.
(** [get_default_device()] of [hssl.session]. *)
Variable get_default_device : device.

(** The body of [to_device] once [device] is known; a function that
    falls off its last [if] returns [None]. *)
Fixpoint to_device_on (dev : device) (x : pyobj) : pyobj :=
  match x with
  | Tensor data _ => Tensor data dev
  | PyList xs => PyList (map (to_device_on dev) xs)
  | PyDictObj kvs => PyDictObj (map (λ kv, (kv.1, to_device_on dev kv.2)) kvs)
  | _ => PyNone
  end.

Definition to_device (x : pyobj) (dev : option device) : pyobj :=
  to_device_on (default get_default_device dev) x.
End ToDevice.

(** [x[i1][i2]...]: the value found in [x] by going down through list
    elements and dict values, an entry of a dict being named by its
    position. [None] when the path leaves the structure. *)
Fixpoint py_get (path : list nat) (x : pyobj) : option pyobj :=
  match path with
  | [] => Some x
  | i :: path' =>
      match x with
      | PyList xs => xs !! i ≫= py_get path'
      | PyDictObj kvs => kvs !! i ≫= (λ kv, py_get path' kv.2)
      | _ => None
      end
  end.

(** ** [with_interrupt_handler] (utility.py 251-260)

    The process state the decorator touches is the handler installed for
    [SIGINT]; [World] is whatever else the wrapped function can see and
    change. A Python function is a state transformer that returns a value
    or raises. *)
Section InterruptHandler.
Context {Handler World Args Val : Type}.

Record process : Type := Process { sigint : Handler; world : World }.

(** [signal.getsignal(signal.SIGINT)] and
    [signal.signal(signal.SIGINT, h)]. *)
Definition getsignal (p : process) : Handler := sigint p.
Definition signal (h : Handler) (p : process) : process :=
  {| sigint := h; world := world p |}.

Definition pyfun : Type := Args → process → process * result Val.

(** [_wrapper]: there is no [try]/[finally] around the call, and the
    value of [func] is not returned. *)
Definition with_interrupt_handler (handler : Handler) (func : pyfun)
  : Args → process → process * result unit :=
  λ args p,
    let previous_handler := getsignal p in
    let p1 := signal handler p in
    let '(p2, r) := func args p1 in
    match r with
    | Raise e => (p2, Raise e)
    | Ok _ => (signal previous_handler p2, Ok ())
    end.
End InterruptHandler.
Arguments process : clear implicits.
Arguments pyfun : clear implicits.

(** ** [store_state] and [restore_state] (__main__.py 171-187)

    The model and the optimizers are objects of the training framework;
    what the two functions use of them is [state_dict()] and
    [load_state_dict(s)]. The latter mutates its object and may raise, so
    it returns the object as it is left together with the exception, if
    any. *)
Section LoadOptimizers.
Context {Optimizer OptimizerState : Type}.
Variable optimizer_load_state_dict :
  Optimizer → OptimizerState → Optimizer * option exn.

(** [for optimizer, optimizer_state in zip(optimizers, states)]: the
    loop ends with the shorter of the two lists. *)
Fixpoint load_optimizers (optimizers : list Optimizer)
    (states : list OptimizerState) : list Optimizer * option exn :=
  match optimizers, states with
  | optimizer :: optimizers', optimizer_state :: states' =>
      let '(optimizer', e) :=
        optimizer_load_state_dict optimizer optimizer_state in
      match e with
      | Some e => (optimizer' :: optimizers', Some e)
      | None =>
          let '(rest, e') := load_optimizers optimizers' states' in
          (optimizer' :: rest, e')
      end
  | _, _ => (optimizers, None)
  end.
End LoadOptimizers.

Section Checkpoint.
Context {Model ModelState Optimizer OptimizerState : Type}.

(** The values a checkpoint dictionary holds. *)
Inductive ckpt_value : Type :=
| VModelState (s : ModelState)
| VOptimizerStates (ss : list OptimizerState)
| VInt (n : Z).

Variable model_state_dict : Model → ModelState.
Variable model_load_state_dict : Model → ModelState → Model * option exn.
Variable optimizer_state_dict : Optimizer → OptimizerState.
Variable optimizer_load_state_dict :
  Optimizer → OptimizerState → Optimizer * option exn.

(** [restore_state] does not look at what kind of value the record holds
    under a key. What the framework does with a value of another kind is
    its own: [model.load_state_dict(v)] for [v] that is not a model
    state, and [optimizer.load_state_dict(k)] for a key [k] of a state
    dictionary, which is what iterating over such a dictionary yields. *)
Variable model_load_other : Model → ckpt_value → Model * option exn.
Variable state_keys : ModelState → list string.
Variable optimizer_load_key : Optimizer → string → Optimizer * option exn.

(** [t.save] and [t.load] against a store of named files. *)
Definition torch_save (obj : gmap string ckpt_value) (file : string)
    (fs : gmap string (gmap string ckpt_value))
  : gmap string (gmap string ckpt_value) :=
  <[file := obj]> fs.

Definition torch_load (file : string)
    (fs : gmap string (gmap string ckpt_value))
  : result (gmap string ckpt_value) :=
  match fs !! file with
  | Some obj => Ok obj
  | None => Raise FileNotFoundError
  end.

Definition store_state (model : Model) (optimizers : list Optimizer)
    (iteration : Z) (file : string)
    (fs : gmap string (gmap string ckpt_value))
  : gmap string (gmap string ckpt_value) :=
  torch_save
    (<["model" := VModelState (model_state_dict model)]>
     (<["optimizers" :=
          VOptimizerStates (optimizer_state_dict <$> optimizers)]>
      (<["iteration" := VInt iteration]> ∅)))
    file fs.

(** [model.load_state_dict(v)] *)
Definition load_model (model : Model) (v : ckpt_value) : Model * option exn :=
  match v with
  | VModelState s => model_load_state_dict model s
  | _ => model_load_other model v
  end.

(** The loop over [zip(optimizers, v)]: a list yields its elements and a
    state dictionary its keys; an integer is not iterable, and [zip]
    raises [TypeError] before the loop starts. *)
Definition load_zipped (optimizers : list Optimizer) (v : ckpt_value)
  : list Optimizer * option exn :=
  match v with
  | VOptimizerStates ss =>
      load_optimizers optimizer_load_state_dict optimizers ss
  | VModelState s => load_optimizers optimizer_load_key optimizers (state_keys s)
  | VInt _ => (optimizers, Some TypeError)
  end.

(** The outcome is the model and the optimizers as the call leaves them,
    and what the call returns or raises. *)
Definition restore_state (model : Model) (optimizers : list Optimizer)
    (file : string) (fs : gmap string (gmap string ckpt_value))
  : (Model * list Optimizer) * result ckpt_value :=
  match torch_load file fs with
  | Raise e => ((model, optimizers), Raise e)
  | Ok state =>
      match state !! "vae" with
      | None => ((model, optimizers), Raise (KeyError "vae"))
      | Some vae =>
          match load_model model vae with
          | (model', Some e) => ((model', optimizers), Raise e)
          | (model', None) =>
              match state !! "optimizers" with
              | None => ((model', optimizers), Raise (KeyError "optimizers"))
              | Some states =>
                  match load_zipped optimizers states with
                  | (optimizers', Some e) => ((model', optimizers'), Raise e)
                  | (optimizers', None) =>
                      match state !! "iteration" with
                      | None =>
                          ((model', optimizers'), Raise (KeyError "iteration"))
                      | Some v => ((model', optimizers'), Ok v)
                      end
                  end
              end
          end
      end
  end.
End Checkpoint.
Arguments ckpt_value : clear implicits.

(** ** Sorting

    Python's [sorted] on strings (code-point order) and on integers. *)
Definition str_le : relation string := λ a b, String.leb a b = true.

#[global] Instance str_le_dec : RelDecision str_le.
Proof. intros a b. unfold str_le. apply _. Defined.

#[global] Instance str_le_total : Total str_le.
Proof. intros a b. apply String.leb_total. Qed.

Definition sorted_str (l : list string) : list string := merge_sort str_le l.
Definition sorted_int (l : list Z) : list Z := merge_sort Z.le l.

(** [map] with a function that may raise: the first failure, from the
    left, is the one raised (a list comprehension). *)
Fixpoint map_result {A B} (f : A → result B) (l : list A) : result (list B) :=
  match l with
  | [] => Ok []
  | x :: l' => y ← f x; ys ← map_result f l'; Ok (y :: ys)
  end.

(** ** [design_matrix_from] (utility.py 178-222) *)

(** The design table: [len(design)] sample rows and named columns of that
    length. *)
Record table (Cell : Type) : Type := Table {
  nrows : nat;
  columns : gmap string (list Cell);
}.
Arguments Table {Cell} nrows columns.
Arguments nrows {Cell} t.
Arguments columns {Cell} t.

Definition table_wf {Cell} (design : table Cell) : Prop :=
  ∀ name col, columns design !! name = Some col → length col = nrows design.

(** A pandas categorical column: the categories and, per sample, the
    position of its value among them, or [-1] for a value that is none of
    them. *)
Record categorical : Type := Categorical {
  categories : list string;
  codes : list Z;
}.

(** A data frame of integers with labelled rows; [pd.concat(..., keys=...)]
    labels a row by the key of its block and the row's label there. *)
Record frame : Type := Frame {
  index : list (string * string);
  ncols : nat;
  data : list (list Z);
}.

Definition index_of (v : string) (l : list string) : Z :=
  match list_find (λ x, x = v) l with
  | Some (i, _) => Z.of_nat i
  | None => -1
  end.

(** [cat.set_categories(new)]: values that are not in [new] get code [-1]. *)
Definition set_categories (new : list string) (c : categorical) : categorical :=
  {| categories := new;
     codes :=
       (λ code,
          if code <? 0 then -1
          else match categories c !! Z.to_nat code with
               | Some v => index_of v new
               | None => -1
               end) <$> codes c |}.

(** [np.eye(n, dtype=int)] and the position an integer index selects on an
    axis of size [n] when numpy checks it against the axis: a negative
    index counts from the end. *)
Definition eye (i j : nat) : Z := if decide (i = j) then 1 else 0.

Definition np_index (n : nat) (c : Z) : result nat :=
  if decide (0 ≤ c < Z.of_nat n) then Ok (Z.to_nat c)
  else if decide (- Z.of_nat n ≤ c < 0) then Ok (Z.to_nat (c + Z.of_nat n))
  else Raise IndexError.

(** [np.eye(n, dtype=int)[:, codes]], as its rows: row [i] holds, for
    every code, the entry of the identity in the column the code selects.
    numpy checks the codes against the axis only when the result has
    elements: for [n = 0] the result has no row and every code passes. *)
Definition eye_columns (n : nat) (codes : list Z) : result (list (list Z)) :=
  if decide (n = 0%nat) then Ok []
  else
    js ← map_result (np_index n) codes;
    Ok (map (λ i, map (eye i) js) (seq 0 n)).

(** [_encode]: [np.eye(n)[:, codes]] with the categories as row labels. *)
Definition _encode (c : categorical) : result (list string * list (list Z)) :=
  rows ← eye_columns (length (categories c)) (codes c);
  Ok (categories c, rows).

(** [pd.concat(vs, keys=ks)]: the blocks below each other. [widths] are
    the numbers of columns of the frames [vs]; the columns of the result
    are the union of their column ranges, the widest of them. *)
Definition pd_concat (widths : list nat)
    (blocks : list (string * (list string * list (list Z)))) : frame :=
  {| index := blocks ≫= (λ b, (λ cat, (b.1, cat)) <$> b.2.1);
     ncols := foldr Nat.max 0%nat widths;
     data := blocks ≫= (λ b, b.2.2) |}.

(** [frame.loc[key]]: the rows of the block labelled [key], with their
    labels inside the block. *)
Definition rows_of (key : string) (f : frame) : list (string * list Z) :=
  (λ r, (r.1.2, r.2)) <$> filter (λ r, r.1.1 = key) (zip (index f) (data f)).

Section DesignMatrix.
Context {Cell : Type}.
(** [str(x)] on a cell, as [.astype(str)] applies it. *)
Variable astype_str : Cell → string.

(** [.astype(str).astype('category')] on one column: the categories are
    the distinct values, sorted. *)
Definition astype_category (col : list Cell) : categorical :=
  let vals := astype_str <$> col in
  let cats := sorted_str (remove_dups vals) in
  {| categories := cats; codes := (λ v, index_of v cats) <$> vals |}.

Definition select (design : gmap string categorical) (names : list string)
  : result (list (string * categorical)) :=
  map_result
    (λ x, match design !! x with
          | Some c => Ok (x, c)
          | None => Raise (KeyError x)
          end) names.

Definition design_matrix_from (design : table Cell)
    (covariates : option (list (string * gset string))) : result frame :=
  if decide (columns design = ∅) then
    Ok {| index := []; ncols := nrows design; data := [] |}
  else
    let design1 : gmap string categorical :=
      astype_category <$> columns design in
    let names := sorted_str (map_to_list design1).*1 in
    design3 ←
      match covariates with
      | Some covariates =>
          let missing_covariates :=
            filter (λ x, design1 !! x = None) covariates.*1 in
          if decide (missing_covariates = []) then
            let design2 :=
              foldl (λ d cv,
                       alter (set_categories (sorted_str (elements cv.2)))
                         cv.1 d)
                design1 covariates in
            select design2 covariates.*1
          else
            Raise (ValueError
              (String.append
                 "the following covariates are missing from the design: "
                 (String.concat ", " missing_covariates)))
      | None =>
          let design2 :=
            (λ c, set_categories (sorted_str (categories c)) c) <$> design1 in
          select design2 names
      end;
    blocks ← map_result (λ kv, f ← _encode kv.2; Ok (kv.1, f)) design3;
    match blocks with
    | [] => Raise (ValueError "not enough values to unpack (expected 2, got 0)")
    | _ =>
        (* the frame of a column has one column per sample, also when it
           has no row *)
        Ok (pd_concat ((λ kv, length (codes kv.2)) <$> design3) blocks)
    end.
End DesignMatrix.

(** ** [Slide.__getitem__] (slide.py 46-65) *)

(** [scipy.ndimage.binary_fill_holes] with its default cross-shaped
    structuring element: the pixels of the complement of [input] that a
    path of horizontal and vertical steps through the complement connects
    to the outside of the array are the background; everything else is
    filled. The background is grown from the border, one dilation per
    round, for as many rounds as the array has pixels. *)
Definition grid_at (g : list (list bool)) (i j : Z) : bool :=
  if decide (0 ≤ i ∧ 0 ≤ j) then
    match g !! Z.to_nat i with
    | Some row => default true (row !! Z.to_nat j)
    | None => true
    end
  else true.

Definition dilate_within (mask reach : list (list bool)) : list (list bool) :=
  imap (λ i row,
          imap (λ j (m : bool),
                  let i := Z.of_nat i in
                  let j := Z.of_nat j in
                  m && (grid_at reach i j
                        || grid_at reach (i - 1) j || grid_at reach (i + 1) j
                        || grid_at reach i (j - 1) || grid_at reach i (j + 1)))
            row)
    mask.

Definition fill_holes (input : list (list bool)) : list (list bool) :=
  let mask := map (map negb) input in
  let background :=
    Nat.iter (length (concat input)) (dilate_within mask)
      (map (map (λ _, false)) input) in
  map (map negb) background.

Module Slide.
Section WithFramework.
Context {Image ImageTensor : Type}.
Variable binary_fill_holes : list (list bool) → list (list bool).
(** [torch.tensor(image / 255 * 2 - 1).permute(2, 0, 1).float()] *)
Variable normalize : Image → ImageTensor.

(** A slide object: the dense count matrix (row [i] belongs to label
    [i + 1]) and the two abstract methods of its concrete class. *)
Record t : Type := Make {
  _data : list (list Z);
  _get_patch : Z → result (Image * list (list Z));
  __len__ : nat;
}.

Record patch : Type := Patch {
  image : ImageTensor;
  label : list (list Z);
  data : list (list Z);
  type : string;
}.

Definition row_sum (row : list Z) : Z := foldr Z.add 0 row.

(** [np.concatenate([np.array([0]), np.where(data.sum(1) == 0)[0] + 1])] *)
Definition _zero_data (self : t) : list Z :=
  0 :: omap id
         (imap (λ i row,
                  if decide (row_sum row = 0) then Some (Z.of_nat i + 1)
                  else None)
            (_data self)).

(** [label[np.invert(binary_fill_holes(np.isin(label, zero)))] = 0];
    the filled mask has the shape of the label crop. *)
Definition remove_partially_visible (zero : list Z) (label : list (list Z))
  : list (list Z) :=
  let filled :=
    binary_fill_holes (map (map (λ x, bool_decide (x ∈ zero))) label) in
  zip_with (zip_with (λ (f : bool) x, if negb f then 0 else x)) filled label.

(** [sorted(np.unique(label))] *)
Definition unique_labels (label : list (list Z)) : list Z :=
  sorted_int (remove_dups (concat label)).

(** [self._data[rows]] for a list of row numbers. *)
Definition take_rows (self : t) (rows : list Z) : result (list (list Z)) :=
  map_result
    (λ r, match _data self !! Z.to_nat r with
          | Some row => Ok row
          | None => Raise IndexError
          end) rows.

(** [np.searchsorted(labels, x)]: the leftmost position at which [x]
    can be inserted into the sorted [labels]. *)
Definition searchsorted (labels : list Z) (x : Z) : Z :=
  Z.of_nat (length (filter (λ y, y < x) labels)).

(** One pass through the body: [Ok None] when no count row is left and
    the method calls itself on the next index. *)
Definition patch_at (self : t) (idx : Z) : result (option patch) :=
  il ← _get_patch self idx;
  let label := remove_partially_visible (_zero_data self) il.2 in
  let labels := unique_labels label in
  data ← take_rows self ((λ x, x - 1) <$> filter (λ x, 0 < x) labels);
  if decide (length data = 0%nat) then Ok None
  else Ok (Some {| image := normalize il.1;
                   label := map (map (searchsorted labels)) label;
                   data := data;
                   type := "ST" |}).

(** [fuel] bounds the depth of the recursion; [None] means that the
    call has not returned within that depth. *)
Fixpoint __getitem__ (fuel : nat) (self : t) (idx : Z)
  : option (result patch) :=
  match fuel with
  | O => None
  | S fuel' =>
      match patch_at self idx with
      | Raise e => Some (Raise e)
      | Ok (Some p) => Some (Ok p)
      | Ok None =>
          if decide (__len__ self = 0%nat) then
            Some (Raise ZeroDivisionError)
          else
            __getitem__ fuel' self ((idx + 1) `mod` Z.of_nat (__len__ self))
      end
  end.

(** The index on which the [n]-th nested call works. *)
Definition next_index (self : t) (idx : Z) : Z :=
  (idx + 1) `mod` Z.of_nat (__len__ self).

Definition nth_index (self : t) (n : nat) (idx : Z) : Z :=
  Nat.iter n (next_index self) idx.

(** The non-zero ids left in the crop at [idx] once the partially
    visible labels are removed. *)
Definition surviving_ids (self : t) (idx : Z) : result (list Z) :=
  il ← _get_patch self idx;
  Ok (filter (λ x, 0 < x)
        (unique_labels
           (remove_partially_visible (_zero_data self) il.2))).
End WithFramework.
Arguments t : clear implicits.
Arguments patch : clear implicits.
End Slide.

(** ** [find_device] (utility.py 272-285) *)

(** The first result of [f] along a list: a [for] loop that returns at
    the first element whose result is not [None]. *)
Definition first_some {A B} (f : A → option B) : list A → option B :=
  fix go l :=
    match l with
    | [] => None
    | x :: l' => match f x with Some b => Some b | None => go l' end
    end.

Fixpoint find_device (x : pyobj) : option device :=
  match x with
  | Tensor _ dev => Some dev
  | PyList xs => first_some find_device xs
  | PyDictObj kvs => first_some (λ kv, find_device kv.2) kvs
  | _ => None
  end.

(** The devices of the tensors of [x] that are reached through lists and
    dict values only, in depth-first order. *)
Fixpoint tensor_devices (x : pyobj) : list device :=
  match x with
  | Tensor _ dev => [dev]
  | PyList xs => xs ≫= tensor_devices
  | PyDictObj kvs => kvs ≫= (λ kv, tensor_devices kv.2)
  | _ => []
  end.

(** ** [compose] (utility.py 44-49)

    [compose(f, *gs)] on functions of one argument that may raise. *)
Fixpoint compose {A} (f : A → result A) (gs : list (A → result A))
  : A → result A :=
  match gs with
  | [] => f
  | g :: gs' => λ x, y ← compose g gs' x; f y
  end.

(** ** [collect_items] (__main__.py 39-46) *)
Section CollectItems.
Context {V S : Type}.
(** [v.item()]: the scalar of a one-element tensor; it raises for other
    tensors and for values that have no such method. *)
Variable item : V → result S.

Definition collect_items (d : PyDict.t V) : result (PyDict.t S) :=
  for_each
    (λ d_ kv,
       try_except (s ← item kv.2; Ok (PyDict.set d_ kv.1 s))
         (λ e, match e with
               | ValueError _ | AttributeError => Some (Ok d_)
               | _ => None
               end))
    [] d.

(** What an entry contributes to the result: its scalar, or nothing. *)
Definition kept (kv : string * V) : option (string * S) :=
  match item kv.2 with
  | Ok s => Some (kv.1, s)
  | Raise _ => None
  end.

(** The exceptions of [item] that the [except] clause swallows. *)
Definition dropped_silently (e : exn) : Prop :=
  e = AttributeError ∨ ∃ msg, e = ValueError msg.
End CollectItems.

(** ** [center_crop] (utility.py 81-87, __main__.py 63-69)

    An array is a scalar or a list of arrays along its first axis. *)
Inductive ndarray : Type :=
| Scalar (x : Z)
| Array (items : list ndarray).

(** [input.shape] *)
Fixpoint shape (a : ndarray) : list nat :=
  match a with
  | Scalar _ => []
  | Array items =>
      length items :: match items with [] => [] | x :: _ => shape x end
  end.

(** [a] has the extents [s] along its axes. *)
Fixpoint has_shape (s : list nat) (a : ndarray) : bool :=
  match s, a with
  | [], Scalar _ => true
  | n :: s', Array items =>
      bool_decide (length items = n) && forallb (has_shape s') items
  | _, _ => false
  end.

(** [a[i0, i1, ...]] for in-range integer indices. *)
Fixpoint nd_get (idx : list nat) (a : ndarray) : option ndarray :=
  match idx with
  | [] => Some a
  | i :: idx' =>
      match a with
      | Array items =>
          match items !! i with
          | Some x => nd_get idx' x
          | None => None
          end
      | Scalar _ => None
      end
  end.

(** A [slice(start, stop)] on an axis of [n] elements: a negative bound
    counts from the end, and both bounds are clipped to the axis. *)
Inductive slice : Type :=
| SliceAll
| Slice (start stop : Z).

Definition slice_bound (n i : Z) : Z :=
  if i <? 0 then Z.max 0 (i + n) else Z.min i n.

Definition slice_list {A} (s : slice) (l : list A) : list A :=
  match s with
  | SliceAll => l
  | Slice start stop =>
      let n := Z.of_nat (length l) in
      let lo := slice_bound n start in
      let hi := slice_bound n stop in
      take (Z.to_nat (hi - lo)) (drop (Z.to_nat lo) l)
  end.

(** [a[s0, s1, ...]] for a tuple of slices, one per leading axis. *)
Fixpoint getitem_slices (slices : list slice) (a : ndarray) : ndarray :=
  match slices with
  | [] => a
  | s :: slices' =>
      match a with
      | Array items => Array (map (getitem_slices slices') (slice_list s items))
      | Scalar _ => a
      end
  end.

Definition center_slice (a : nat) (b : option Z) : slice :=
  match b with
  | Some b =>
      Slice ((Z.of_nat a - b) `div` 2) ((Z.of_nat a - b) `div` 2 + b)
  | None => SliceAll
  end.

Definition center_crop (input : ndarray) (target_shape : list (option Z))
  : ndarray :=
  getitem_slices (zip_with center_slice (shape input) target_shape) input.

(** The extents and the offsets of a crop of an array of shape [s]. *)
Fixpoint cropped_shape (s : list nat) (target_shape : list (option Z))
  : list nat :=
  match s, target_shape with
  | a :: s', Some b :: t' => Z.to_nat b :: cropped_shape s' t'
  | a :: s', None :: t' => a :: cropped_shape s' t'
  | _, _ => s
  end.

Fixpoint crop_offsets (s : list nat) (target_shape : list (option Z))
  : list nat :=
  match s, target_shape with
  | a :: s', Some b :: t' =>
      Z.to_nat ((Z.of_nat a - b) `div` 2) :: crop_offsets s' t'
  | a :: s', None :: t' => 0%nat :: crop_offsets s' t'
  | _, _ => []
  end.

(** [idx] moved by [offsets] on the leading axes. *)
Fixpoint shift_index (idx offsets : list nat) : list nat :=
  match idx, offsets with
  | i :: idx', o :: offsets' => (i + o)%nat :: shift_index idx' offsets'
  | _, _ => idx
  end.

(** A target fits an array of shape [s] when it names no more axes than
    the array has and no extent larger than the array's; an index is
    inside the crop when it stays below the target on every cropped
    axis. *)
Definition fits (s : list nat) (target_shape : list (option Z)) : Prop :=
  (length target_shape ≤ length s)%nat
  ∧ ∀ k a b, s !! k = Some a → target_shape !! k = Some (Some b) →
             0 ≤ b ≤ Z.of_nat a.

Definition inside (idx : list nat) (target_shape : list (option Z)) : Prop :=
  (length target_shape ≤ length idx)%nat
  ∧ ∀ k i b, idx !! k = Some i → target_shape !! k = Some (Some b) →
             Z.of_nat i < b.

(** ** The extents of the decoder ([Histonet], __main__.py 72-168)

    The latent code has [np.ceil(x / 16).astype(int)] entries per spatial
    axis of an image with [x] pixels there. [decoder] is one
    [ConvTranspose2d] with kernel 4, stride 1 and padding 0 followed by
    four with kernel 4, stride 2 and padding 1; such a layer turns an
    extent [n] into [(n - 1) * stride - 2 * padding + kernel]. The
    [Conv2d] layers behind it (kernel 3, stride 1, padding 1) keep the
    extent. *)
Definition conv_transpose2d_extent (kernel stride padding n : Z) : Z :=
  (n - 1) * stride - 2 * padding + kernel.

Definition latent_extent (x : Z) : Z := (x + 15) `div` 16.

Definition decoder_extent (n : Z) : Z :=
  conv_transpose2d_extent 4 2 1
    (conv_transpose2d_extent 4 2 1
       (conv_transpose2d_extent 4 2 1
          (conv_transpose2d_extent 4 2 1
             (conv_transpose2d_extent 4 1 0 n)))).

(** [self._shape] for an image of [h] by [w] pixels. *)
Definition forward_shape (h w : Z) : list (option Z) :=
  [None; None; Some h; Some w].

(** ** [chunks_of] (utility.py 263-269)

    [itertools.zip_longest] is called with [n] arguments that are one
    and the same iterator [it] over [xs], and with a fill value. A slot is the
    argument position; it stays active until its [next] has raised
    [StopIteration] once, and the fill value is [None] here. One round
    builds one tuple, or ends the iteration when the last active slot is
    exhausted. *)
Fixpoint zip_longest_round {A} (slots : list bool) (it : list A)
    (numactive : nat) : option (list (option A) * list bool * list A * nat) :=
  match slots with
  | [] => Some ([], [], it, numactive)
  | false :: slots' =>
      '(tuple, slots'', it', n) ← zip_longest_round slots' it numactive;
      Some (None :: tuple, false :: slots'', it', n)
  | true :: slots' =>
      match it with
      | x :: it' =>
          '(tuple, slots'', it'', n) ← zip_longest_round slots' it' numactive;
          Some (Some x :: tuple, true :: slots'', it'', n)
      | [] =>
          if decide (Nat.pred numactive = 0%nat) then None
          else
            '(tuple, slots'', it', n) ←
              zip_longest_round slots' [] (Nat.pred numactive);
            Some (None :: tuple, false :: slots'', it', n)
      end
  end.

(** The tuples of the first [fuel] rounds. *)
Fixpoint zip_longest_rounds {A} (fuel : nat) (slots : list bool)
    (it : list A) (numactive : nat) : list (list (option A)) :=
  match fuel with
  | O => []
  | S fuel' =>
      if decide (slots = [] ∨ numactive = 0%nat) then []
      else
        match zip_longest_round slots it numactive with
        | None => []
        | Some (tuple, slots', it', n) =>
            tuple :: zip_longest_rounds fuel' slots' it' n
        end
  end.

(** A round that yields a tuple consumes an element, so that
    [length xs + 1] rounds see the end of the iteration. Each tuple is
    stripped of its fill values. *)
Definition chunks_of {A} (n : nat) (xs : list A) : list (list A) :=
  map (λ tuple : list (option A), omap id tuple)
    (zip_longest_rounds (S (length xs)) (replicate n true) xs n).

(** ** Concrete inputs

    A framework in miniature, on which the functions above run: a model
    or optimizer is its state, an integer, and [load_state_dict] always
    succeeds. *)
Module Inputs.
Definition state_dict (obj : Z) : Z := obj.
Definition load_state_dict (obj state : Z) : Z * option exn := (state, None).

(** Values of another kind are refused, and a state, being one integer,
    has no keys. *)
Definition load_other (obj : Z) (v : ckpt_value Z Z) : Z * option exn :=
  (obj, Some TypeError).
Definition state_keys (state : Z) : list string := [].
Definition load_key (obj : Z) (k : string) : Z * option exn :=
  (obj, Some TypeError).

(** A checkpoint with one optimizer state whose model state is stored
    under ['vae']. *)
Definition checkpoint : gmap string (ckpt_value Z Z) :=
  <["vae" := VModelState 7]>
    (<["optimizers" := VOptimizerStates [1]]>
       (<["iteration" := VInt 50000]> ∅)).

(** A wrapped function that raises. *)
Definition failing_func : pyfun nat unit unit unit :=
  λ _ p, (p, Raise (RuntimeError "stop")).

(** One covariate with the values [a] and [z] for two samples; the
    allowlist admits [a] and [b]. *)
Definition design : table string :=
  Table 2 {[ "c" := ["a"; "z"] ]}.
Definition allowlist : list (string * gset string) :=
  [("c", {[ "a"; "b" ]})].


(** A one-pixel slide whose only segment has a non-zero count row. *)
Definition border_slide : Slide.t unit :=
  Slide.Make [[5]] (λ _, Ok ((), [[1]])) 1.

(** Segment 1 (counts 5) enclosed by segment 2 (no counts): the crop
    holds no background pixel. *)
Definition ring_slide : Slide.t unit :=
  Slide.Make [[5]; [0]]
    (λ _, Ok ((), [[2; 2; 2]; [2; 1; 2]; [2; 2; 2]])) 1.

(** Segment 2 (counts 3) surrounded by background. *)
Definition interior_slide : Slide.t unit :=
  Slide.Make [[0]; [3]]
    (λ _, Ok ((), [[0; 0; 0]; [0; 2; 0]; [0; 0; 0]])) 1.

(** A data set of length 3 over the same counts: the crop at index 0
    holds segment 2 in its interior, the crops at the other indices hold
    nothing but segment 2, which touches their border. *)
Definition sweep_slide : Slide.t unit :=
  Slide.Make [[0]; [3]]
    (λ idx, if decide (idx = 0) then Ok ((), [[0; 0; 0]; [0; 2; 0]; [0; 0; 0]])
            else Ok ((), [[2]])) 3.
End Inputs.

(** ** Further concrete inputs *)
Module MoreInputs.
(** Values of a dictionary handed to [collect_items]: a tensor given by
    its elements, a plain Python number, and an object whose [item]
    method raises [RuntimeError]. *)
Inductive logged : Type :=
| Elements (xs : list Z)
| Number (x : Z)
| Broken (msg : string).

(** [v.item()]: a tensor with one element gives it, and [ValueError]
    with any other number of elements; a number has no attribute
    [item]. *)
Definition item (v : logged) : result Z :=
  match v with
  | Elements [x] => Ok x
  | Elements _ =>
      Raise (ValueError
               "only one element tensors can be converted to Python scalars")
  | Number _ => Raise AttributeError
  | Broken msg => Raise (RuntimeError msg)
  end.

(** A checkpoint that lacks the iteration. *)
Definition checkpoint : gmap string (ckpt_value Z Z) :=
  <["vae" := VModelState 7]> (<["optimizers" := VOptimizerStates [1]]> ∅).

(** The slide of [Inputs.border_slide] in a data set of length 0. *)
Definition empty_slide : Slide.t unit :=
  Slide.Make [[5]] (λ _, Ok ((), [[1]])) 0.

(** A segment with id 3 in the crop and one count row. *)
Definition short_slide : Slide.t unit :=
  Slide.Make [[5]] (λ _, Ok ((), [[0; 0; 0]; [0; 3; 0]; [0; 0; 0]])) 1.

(** Two rows of four elements. *)
Definition matrix : ndarray :=
  Array [Array [Scalar 1; Scalar 2; Scalar 3; Scalar 4];
         Array [Scalar 5; Scalar 6; Scalar 7; Scalar 8]].

(** A decoded batch for an image of one pixel: 1 x 1 x 64 x 64. *)
Definition decoded : ndarray :=
  Array [Array [Array (replicate 64 (Array (replicate 64 (Scalar 0))))]].
End MoreInputs.

(** * Properties *)

(** ** Python dictionaries and [zip_dicts] *)

Section PyDictFacts.
Context {V : Type}.
Implicit Types (d : PyDict.t V) (k : string) (v : V).

Lemma get_is_Some d k : is_Some (PyDict.get d k) ↔ k ∈ PyDict.keys d.
Proof.
  induction d as [|[k' v'] d IH]; simpl.
  - split; [intros [? ?]; discriminate | intros H; inversion H].
  - destruct (decide (k' = k)) as [->|Hne].
    + split; [intros _; left | eauto].
    + rewrite IH. split; [by right | intros H; inversion H; subst; [done|assumption]].
Qed.

Lemma get_set_eq d k v : PyDict.get (PyDict.set d k v) k = Some v.
Proof.
  induction d as [|[k' v'] d IH]; simpl.
  - by rewrite decide_True.
  - destruct (decide (k' = k)) as [->|Hne]; simpl.
    + by rewrite decide_True.
    + by rewrite decide_False.
Qed.

Lemma get_set_ne d k k' v :
  k ≠ k' → PyDict.get (PyDict.set d k v) k' = PyDict.get d k'.
Proof.
  intros Hne. induction d as [|[k0 v0] d IH]; simpl.
  - by rewrite decide_False.
  - destruct (decide (k0 = k)) as [->|Hne0]; simpl.
    + by rewrite !decide_False.
    + by rewrite IH.
Qed.

Lemma keys_set_present d k v :
  k ∈ PyDict.keys d → PyDict.keys (PyDict.set d k v) = PyDict.keys d.
Proof.
  induction d as [|[k0 v0] d IH]; simpl; intros Hin.
  - inversion Hin.
  - destruct (decide (k0 = k)) as [->|Hne0]; simpl; [done|].
    f_equal. apply IH. inversion Hin; subst; [done|assumption].
Qed.

Lemma keys_set_absent d k v :
  k ∉ PyDict.keys d → PyDict.keys (PyDict.set d k v) = PyDict.keys d ++ [k].
Proof.
  induction d as [|[k0 v0] d IH]; simpl; intros Hin; [done|].
  rewrite not_elem_of_cons in Hin. destruct Hin as [Hne Hin].
  rewrite decide_False by done. simpl. f_equal. by apply IH.
Qed.
End PyDictFacts.

Lemma for_each_raises_only {A B} (P : exn → Prop) (body : A → B → result A) :
  (∀ a x e, body a x = Raise e → P e) →
  ∀ xs acc e, for_each body acc xs = Raise e → P e.
Proof.
  intros Hbody xs. induction xs as [|x xs IH]; simpl; intros acc e H.
  - discriminate.
  - destruct (body acc x) as [acc'|e'] eqn:Hb; simpl in H.
    + eauto.
    + injection H as <-. eauto.
Qed.

Section ZipDictsFacts.
Context {V : Type}.

Lemma zip_dicts_item_raises (d : PyDict.t (list V)) kv e :
  zip_dicts_item d kv = Raise e → e = KeyError kv.1.
Proof.
  unfold zip_dicts_item, append_at, PyDict.getitem.
  destruct (PyDict.get d kv.1); simpl; [discriminate|].
  by intros [= <-].
Qed.

Lemma zip_dicts_item_Ok (d : PyDict.t (list V)) kv l :
  PyDict.get d kv.1 = Some l →
  zip_dicts_item d kv = Ok (PyDict.set d kv.1 (l ++ [kv.2])).
Proof.
  intros H. unfold zip_dicts_item, append_at, PyDict.getitem. by rewrite H.
Qed.

Lemma zip_dicts_raises_KeyError (ds : list (PyDict.t V)) e :
  zip_dicts ds = Raise e → e = StopIteration ∨ ∃ k, e = KeyError k.
Proof.
  destruct ds as [|d0 ds]; [intros [= <-]; by left|].
  unfold zip_dicts. intros H. right.
  revert H. apply (for_each_raises_only (λ e, ∃ k, e = KeyError k)).
  intros d d_ e'. apply (for_each_raises_only (λ e, ∃ k, e = KeyError k)).
  intros d' kv e'' H. apply zip_dicts_item_raises in H. eauto.
Qed.

Lemma zip_dicts_init (ks : list string) : ∀ d : PyDict.t (list V),
  NoDup (PyDict.keys d ++ ks) →
  PyDict.keys (foldl (λ d k, PyDict.set d k []) d ks) = PyDict.keys d ++ ks
  ∧ ∀ k, PyDict.get (foldl (λ d k, PyDict.set d k []) d ks) k
         = if decide (k ∈ ks) then Some [] else PyDict.get d k.
Proof.
  induction ks as [|k0 ks IH]; cbn [foldl]; intros d Hnd.
  - split; [by rewrite app_nil_r|]. intros k. rewrite decide_False; [done|].
    by intros ?%elem_of_nil.
  - assert (k0 ∉ PyDict.keys d) as Hk0.
    { apply NoDup_app in Hnd as (_ & Hd & _). intros Hin.
      apply (Hd _ Hin). left. }
    specialize (IH (PyDict.set d k0 [])).
    rewrite keys_set_absent in IH by done.
    rewrite <- app_assoc in IH. simpl in IH.
    destruct (IH Hnd) as [Hkeys Hget]. split.
    + by rewrite Hkeys.
    + intros k. rewrite Hget.
      assert (k0 ∉ ks) as Hk0'.
      { apply NoDup_app in Hnd as (_ & _ & Hnd). by apply NoDup_cons in Hnd as []. }
      destruct (decide (k = k0)) as [->|Hne].
      * rewrite decide_False by done. rewrite decide_True by left.
        apply get_set_eq.
      * destruct (decide (k ∈ ks)) as [Hin|Hnin].
        -- rewrite decide_True; [done|by right].
        -- rewrite decide_False.
           ++ by apply get_set_ne.
           ++ rewrite elem_of_cons. tauto.
Qed.

Lemma zip_dicts_one (d_ : PyDict.t V) : ∀ d : PyDict.t (list V),
  PyDict.wf d_ →
  (∀ k, k ∈ PyDict.keys d_ → k ∈ PyDict.keys d) →
  ∃ d', for_each zip_dicts_item d d_ = Ok d'
        ∧ PyDict.keys d' = PyDict.keys d
        ∧ ∀ k, PyDict.get d' k =
               match PyDict.get d_ k with
               | Some v => (λ l, l ++ [v]) <$> PyDict.get d k
               | None => PyDict.get d k
               end.
Proof.
  induction d_ as [|[k0 v0] d_ IH]; simpl; intros d Hwf Hsub.
  - eauto.
  - apply NoDup_cons in Hwf as [Hk0 Hwf].
    assert (k0 ∈ PyDict.keys d) as Hin by (apply Hsub; left).
    destruct (proj2 (get_is_Some d k0) Hin) as [l Hl].
    rewrite (zip_dicts_item_Ok d (k0, v0) l Hl). simpl.
    destruct (IH (PyDict.set d k0 (l ++ [v0])) Hwf) as (d' & Hrun & Hkeys & Hget).
    { intros k Hk. rewrite keys_set_present by done. apply Hsub. by right. }
    exists d'. split; [done|]. split.
    { by rewrite Hkeys, keys_set_present. }
    intros k. rewrite Hget. destruct (decide (k0 = k)) as [<-|Hne].
    + assert (PyDict.get d_ k0 = None) as ->.
      { apply eq_None_not_Some. by rewrite get_is_Some. }
      by rewrite get_set_eq, Hl.
    + by rewrite get_set_ne.
Qed.

Lemma zip_dicts_all (ds : list (PyDict.t V)) : ∀ d : PyDict.t (list V),
  (∀ d_, d_ ∈ ds →
     PyDict.wf d_ ∧ ∀ k, k ∈ PyDict.keys d_ ↔ k ∈ PyDict.keys d) →
  ∃ d', for_each (λ d d_, for_each zip_dicts_item d d_) d ds = Ok d'
        ∧ PyDict.keys d' = PyDict.keys d
        ∧ ∀ k, k ∈ PyDict.keys d →
               PyDict.get d' k =
               (λ l, l ++ omap (λ d_, PyDict.get d_ k) ds) <$> PyDict.get d k.
Proof.
  induction ds as [|d_ ds IH]; simpl; intros d Hall.
  - exists d. split; [done|]. split; [done|]. intros k Hk.
    destruct (PyDict.get d k); simpl; [by rewrite app_nil_r|done].
  - destruct (Hall d_) as [Hwf Hkeys_]; [left|].
    destruct (zip_dicts_one d_ d Hwf) as (d1 & Hrun1 & Hkeys1 & Hget1).
    { intros k. apply Hkeys_. }
    rewrite Hrun1. simpl.
    destruct (IH d1) as (d' & Hrun & Hkeys & Hget).
    { intros d2 Hd2. rewrite Hkeys1. apply Hall. by right. }
    exists d'. split; [done|]. split; [congruence|].
    intros k Hk. rewrite Hget by (by rewrite Hkeys1). rewrite Hget1.
    destruct (proj2 (get_is_Some d_ k) (proj2 (Hkeys_ k) Hk)) as [v ->].
    destruct (PyDict.get d k); simpl; [|done].
    by rewrite <- app_assoc.
Qed.

(** With identical key sets, [zip_dicts] returns, under the keys of the
    first dictionary, the values in input order. *)
Lemma zip_dicts_consistent (d0 : PyDict.t V) (ds : list (PyDict.t V)) :
  (∀ d_, d_ ∈ d0 :: ds →
     PyDict.wf d_ ∧ ∀ k, k ∈ PyDict.keys d_ ↔ k ∈ PyDict.keys d0) →
  ∃ d, zip_dicts (d0 :: ds) = Ok d
       ∧ PyDict.keys d = PyDict.keys d0
       ∧ ∀ k, k ∈ PyDict.keys d0 →
           ∃ vs, PyDict.get d k = Some vs
                 ∧ Some <$> vs = (λ d_, PyDict.get d_ k) <$> (d0 :: ds).
Proof.
  intros Hall. unfold zip_dicts.
  destruct (Hall d0) as [Hwf0 _]; [left|].
  destruct (zip_dicts_init (PyDict.keys d0) []) as [Hkeys0 Hget0]; [done|].
  simpl in Hkeys0, Hget0.
  set (dinit := foldl (λ d k, PyDict.set d k []) [] (PyDict.keys d0)) in *.
  destruct (zip_dicts_all (d0 :: ds) dinit) as (d & Hrun & Hkeys & Hget).
  { intros d_ Hd_. rewrite Hkeys0. by apply Hall. }
  exists d. split; [done|]. split; [congruence|].
  intros k Hk. rewrite Hget by (by rewrite Hkeys0). rewrite Hget0.
  rewrite decide_True by done. simpl. eexists. split; [done|].
  assert (∀ l : list (PyDict.t V), (∀ d_, d_ ∈ l → k ∈ PyDict.keys d_) →
            Some <$> omap (λ d_, PyDict.get d_ k) l
            = (λ d_, PyDict.get d_ k) <$> l) as Haux.
  { clear -V. induction l as [|d_ l IH]; intros Hl; [done|]. simpl.
    destruct (proj2 (get_is_Some d_ k) (Hl d_ ltac:(left))) as [v Hv].
    rewrite Hv. simpl. f_equal. apply IH. intros ? ?. apply Hl. by right. }
  apply (Haux (d0 :: ds)). intros d_ Hd_. by apply Hall.
Qed.
End ZipDictsFacts.

(** C5. [zip_dicts] never raises the [ValueError] it has for inconsistent
    keys: its [except] clause waits for [AttributeError], while a key that
    the first dictionary lacks raises [KeyError] and a key that a later
    dictionary lacks raises nothing. A dictionary with an extra key makes
    the call raise [KeyError]; a dictionary with a key missing makes it
    return lists of unequal length. *)
Theorem zip_dicts_inconsistent_keys :
  (∀ V (ds : list (PyDict.t V)) msg, zip_dicts ds ≠ Raise (ValueError msg))
  ∧ zip_dicts [[("a", 1)]; [("b", 2)]] = Raise (KeyError "b")
  ∧ zip_dicts [[("a", 1); ("b", 2)]; [("a", 3)]]
    = Ok [("a", [1; 3]); ("b", [2])].
Proof.
  split; [|split; reflexivity].
  intros V ds msg H. apply zip_dicts_raises_KeyError in H as [H|[k H]]; discriminate.
Qed.

(** ** [to_device], [with_interrupt_handler], checkpoints *)

(** Whatever is found in a structure at some path is found, passed
    through [to_device], at the same path of the result. *)
Lemma py_get_to_device_on (dev : device) (path : list nat) :
  ∀ s y, py_get path s = Some y →
         py_get path (to_device_on dev s) = Some (to_device_on dev y).
Proof.
  induction path as [|i path IH]; intros s y; cbn [py_get].
  - by intros [= ->].
  - destruct s as [data d|xs|kvs|xs|n|str|]; try discriminate;
      cbn [to_device_on]; change (map ?f ?l) with (f <$> l);
      rewrite list_lookup_fmap.
    + destruct (xs !! i) as [x|]; [|discriminate]. cbn. apply IH.
    + destruct (kvs !! i) as [[k v]|]; [|discriminate]. cbn. apply IH.
Qed.

(** C10. For a value that is neither a tensor nor a list nor a dict,
    [to_device] returns [None]; inside a list or a dict handed to
    [to_device] such a value is replaced by [None] at its position, and
    so it is at any depth of a structure of nested lists and dicts. *)
Theorem to_device_other_is_None (default_device : device) (x : pyobj)
    (dev : option device) :
  is_tensor x = false → is_list x = false → is_dict x = false →
  to_device default_device x dev = PyNone
  ∧ (∀ xs i, xs !! i = Some x →
       ∃ ys, to_device default_device (PyList xs) dev = PyList ys
             ∧ length ys = length xs ∧ ys !! i = Some PyNone)
  ∧ (∀ kvs i k, kvs !! i = Some (k, x) →
       ∃ kvs', to_device default_device (PyDictObj kvs) dev = PyDictObj kvs'
               ∧ length kvs' = length kvs ∧ kvs' !! i = Some (k, PyNone))
  ∧ (∀ s path, py_get path s = Some x →
       py_get path (to_device default_device s dev) = Some PyNone).
Proof.
  intros Ht Hl Hd.
  assert (∀ d, to_device_on d x = PyNone) as Hx.
  { intros d. destruct x; simpl in *; congruence. }
  split; [apply Hx|]. split; [|split].
  - intros xs i Hi. eexists. split; [reflexivity|]. split.
    + by rewrite length_map.
    + change (map ?f xs) with (f <$> xs). rewrite list_lookup_fmap, Hi. simpl.
      by rewrite Hx.
  - intros kvs i k Hi. eexists. split; [reflexivity|]. split.
    + by rewrite length_map.
    + change (map ?f kvs) with (f <$> kvs). rewrite list_lookup_fmap, Hi. simpl.
      by rewrite Hx.
  - intros s path Hs. unfold to_device.
    rewrite (py_get_to_device_on _ path s x Hs). by rewrite Hx.
Qed.

Lemma to_device_other_is_None_witness :
  to_device CPU (PyInt 3) (Some (CUDA 0)) = PyNone
  ∧ py_get [0%nat; 0%nat]
      (to_device CPU (PyList [PyList [PyInt 3; Tensor [1] CPU]]) (Some (CUDA 0)))
    = Some PyNone
  ∧ to_device CPU (PyList [PyList [PyInt 3; Tensor [1] CPU]]) (Some (CUDA 0))
    = PyList [PyList [PyNone; Tensor [1] (CUDA 0)]].
Proof.
  destruct (to_device_other_is_None CPU (PyInt 3) (Some (CUDA 0))
              eq_refl eq_refl eq_refl) as (H & _ & _ & Hnested).
  split; [exact H|]. split; [|reflexivity].
  apply Hnested. reflexivity.
Defined.

Section InterruptFacts.
Context {Handler World Args Val : Type}.

(** The two exit paths of the wrapper. When the wrapped function
    returns, the handler that was installed before the call is installed
    again and the wrapper returns [None]; when it raises, the exception
    propagates and the process is left as the function left it. *)
Lemma with_interrupt_handler_exit (handler : Handler)
    (func : pyfun Handler World Args Val) (args : Args)
    (p : process Handler World) :
  let out := with_interrupt_handler handler func args p in
  match func args (signal handler p) with
  | (p', Ok _) =>
      sigint out.1 = sigint p ∧ world out.1 = world p' ∧ out.2 = Ok ()
  | (p', Raise e) => out = (p', Raise e)
  end.
Proof.
  unfold with_interrupt_handler, getsignal.
  destruct (func args (signal handler p)) as [p' [v|e]]; simpl; auto.
Qed.
End InterruptFacts.

(** C4. The previous handler is not restored when the wrapped function
    raises: with handler [0] installed before the call and the custom
    handler [1], a wrapped function that raises leaves handler [1]
    installed. *)
Lemma with_interrupt_handler_not_restored_on_error :
  let p := {| sigint := 0%nat; world := () |} in
  let out := with_interrupt_handler 1%nat Inputs.failing_func () p in
  out.2 = Raise (RuntimeError "stop") ∧ sigint out.1 = 1%nat
  ∧ sigint out.1 ≠ sigint p.
Proof. simpl. repeat split. discriminate. Qed.

Section CheckpointFacts.
Context {Model ModelState Optimizer OptimizerState : Type}.
Variable model_state_dict : Model → ModelState.
Variable model_load_state_dict : Model → ModelState → Model * option exn.
Variable optimizer_state_dict : Optimizer → OptimizerState.
Variable optimizer_load_state_dict :
  Optimizer → OptimizerState → Optimizer * option exn.
Variable model_load_other :
  Model → ckpt_value ModelState OptimizerState → Model * option exn.
Variable state_keys : ModelState → list string.
Variable optimizer_load_key : Optimizer → string → Optimizer * option exn.

(** C1. Restoring from the record that [store_state] has just written
    raises [KeyError('vae')]: the record holds the model state under
    ['model']. Neither the model nor any optimizer is changed and no
    iteration is returned. *)
Theorem restore_after_store_KeyError
    (saved : Model) (saved_optimizers : list Optimizer) (N : Z)
    (model : Model) (optimizers : list Optimizer) (f : string)
    (fs : gmap string (gmap string (ckpt_value ModelState OptimizerState))) :
  restore_state model_load_state_dict optimizer_load_state_dict
    model_load_other state_keys optimizer_load_key
    model optimizers f
    (store_state model_state_dict optimizer_state_dict
       saved saved_optimizers N f fs)
  = ((model, optimizers), Raise (KeyError "vae")).
Proof.
  unfold restore_state, store_state, torch_load, torch_save.
  rewrite lookup_insert_eq.
  rewrite lookup_insert_ne by done.
  rewrite lookup_insert_ne by done.
  rewrite lookup_insert_ne by done.
  by rewrite lookup_empty.
Qed.

Lemma load_optimizers_Ok (optimizers : list Optimizer) : ∀ (ss : list OptimizerState),
  (∀ i o s, optimizers !! i = Some o → ss !! i = Some s →
     (optimizer_load_state_dict o s).2 = None) →
  load_optimizers optimizer_load_state_dict optimizers ss
  = (zip_with (λ o s, (optimizer_load_state_dict o s).1) optimizers ss
       ++ drop (length ss) optimizers, None).
Proof.
  induction optimizers as [|o os IH]; intros ss Hok; simpl.
  - destruct ss; simpl; by rewrite ?drop_nil.
  - destruct ss as [|s ss]; simpl; [done|].
    pose proof (Hok 0%nat o s eq_refl eq_refl) as H0.
    destruct (optimizer_load_state_dict o s) as [o' e]. simpl in H0. subst e.
    rewrite IH; [done|]. intros i o1 s1 Ho1 Hs1. by apply (Hok (S i)).
Qed.

(** The optimizers beyond the stored states are never touched, whether
    or not a load raises. *)
Lemma load_optimizers_beyond (optimizers : list Optimizer) :
  ∀ (ss : list OptimizerState) i,
    (length ss ≤ i)%nat →
    (load_optimizers optimizer_load_state_dict optimizers ss).1 !! i
    = optimizers !! i.
Proof.
  induction optimizers as [|o os IH]; intros ss i Hi; [done|].
  destruct ss as [|s ss]; [done|]. simpl in *.
  destruct i as [|i]; [lia|].
  destruct (optimizer_load_state_dict o s) as [o' [e|]]; [done|].
  specialize (IH ss i ltac:(lia)).
  destruct (load_optimizers optimizer_load_state_dict os ss) as [rest e'].
  exact IH.
Qed.

(** C2, as the code has it. From a record that holds a model state
    under ['vae'], optimizer states under ['optimizers'] and a value
    under ['iteration'], and when the loads succeed, [restore_state]
    returns that value whether or not the two counts agree: the [i]-th
    stored state goes into the [i]-th optimizer for every [i] below
    both counts, and the optimizers beyond the stored states are left
    as they are. *)
Theorem restore_state_pairs_by_position
    (model model' : Model) (optimizers : list Optimizer) (f : string)
    (fs : gmap string (gmap string (ckpt_value ModelState OptimizerState)))
    (state : gmap string (ckpt_value ModelState OptimizerState))
    (s : ModelState) (ss : list OptimizerState)
    (v : ckpt_value ModelState OptimizerState) :
  fs !! f = Some state →
  state !! "vae" = Some (VModelState s) →
  state !! "optimizers" = Some (VOptimizerStates ss) →
  state !! "iteration" = Some v →
  model_load_state_dict model s = (model', None) →
  (∀ i o st, optimizers !! i = Some o → ss !! i = Some st →
     (optimizer_load_state_dict o st).2 = None) →
  restore_state model_load_state_dict optimizer_load_state_dict
    model_load_other state_keys optimizer_load_key
    model optimizers f fs
  = ((model',
      zip_with (λ o st, (optimizer_load_state_dict o st).1) optimizers ss
        ++ drop (length ss) optimizers),
     Ok v).
Proof.
  intros Hf Hvae Hopt Hit Hm Ho.
  unfold restore_state, torch_load, load_model, load_zipped.
  rewrite Hf, Hvae, Hm, Hopt.
  rewrite load_optimizers_Ok by done. by rewrite Hit.
Qed.
End CheckpointFacts.

Lemma restore_state_pairs_by_position_witness :
  restore_state Inputs.load_state_dict Inputs.load_state_dict
    Inputs.load_other Inputs.state_keys Inputs.load_key 0 [10; 20] "ckpt"
    {[ "ckpt" := Inputs.checkpoint ]}
  = ((7, [1; 20]), Ok (VInt 50000)).
Proof.
  apply (restore_state_pairs_by_position
           Inputs.load_state_dict Inputs.load_state_dict
           Inputs.load_other Inputs.state_keys Inputs.load_key
           0 7 [10; 20] "ckpt" {[ "ckpt" := Inputs.checkpoint ]} Inputs.checkpoint
           7 [1] (VInt 50000)).
  - vm_compute. reflexivity.
  - vm_compute. reflexivity.
  - vm_compute. reflexivity.
  - vm_compute. reflexivity.
  - reflexivity.
  - intros i o st _ _. reflexivity.
Defined.

(** C2 fails: with one stored optimizer state and two optimizers,
    [restore_state] raises nothing and the first optimizer is changed. *)
Lemma restore_state_no_StateMismatch :
  let out :=
    restore_state Inputs.load_state_dict Inputs.load_state_dict
      Inputs.load_other Inputs.state_keys Inputs.load_key 0 [10; 20] "ckpt"
      {[ "ckpt" := Inputs.checkpoint ]} in
  Inputs.checkpoint !! "optimizers" = Some (VOptimizerStates [1])
  ∧ length [1] ≠ length [10; 20]
  ∧ is_Ok out.2 = true
  ∧ out.1.2 = [1; 20]
  ∧ out.1.2 ≠ [10; 20].
Proof. vm_compute. repeat split; discriminate. Qed.

(** ** [design_matrix_from] *)

Section MapResultFacts.
Context {A B : Type}.

Lemma map_result_Ok (f : A → result B) (g : A → B) (l : list A) :
  (∀ x, x ∈ l → f x = Ok (g x)) → map_result f l = Ok (g <$> l).
Proof.
  induction l as [|x l IH]; intros Hf; simpl; [done|].
  rewrite Hf by left. simpl. rewrite IH; [done|].
  intros y Hy. apply Hf. by right.
Qed.

Lemma map_result_inv (f : A → result B) (l : list A) (l' : list B) :
  map_result f l = Ok l' → Forall2 (λ x y, f x = Ok y) l l'.
Proof.
  revert l'. induction l as [|x l IH]; simpl; intros l' H.
  - injection H as <-. constructor.
  - destruct (f x) as [y|e] eqn:Hx; simpl in H; [|discriminate].
    destruct (map_result f l) as [ys|e]; simpl in H; [|discriminate].
    injection H as <-. constructor; auto.
Qed.

Lemma map_result_is_Ok (f : A → result B) (l : list A) :
  (∀ x, x ∈ l → is_Ok (f x) = true) → is_Ok (map_result f l) = true.
Proof.
  induction l as [|x l IH]; intros Hf; simpl; [done|].
  pose proof (Hf x ltac:(left)) as Hx.
  destruct (f x) as [y|e]; [|discriminate]. simpl.
  destruct (map_result f l) as [ys|e] eqn:Hl; simpl; [done|].
  apply IH. intros z Hz. apply Hf. by right.
Qed.
End MapResultFacts.

Lemma map_result_fmap {A B C} (f : B → result C) (h : A → B) (l : list A) :
  map_result f (h <$> l) = map_result (λ x, f (h x)) l.
Proof. induction l as [|x l IH]; csimpl; [done|]. by rewrite IH. Qed.

(** Facts on sorting *)
Lemma sorted_str_Permutation l : sorted_str l ≡ₚ l.
Proof. apply merge_sort_Permutation. Qed.

Lemma sorted_str_Sorted l : Sorted str_le (sorted_str l).
Proof. apply (Sorted_merge_sort str_le). Qed.

Lemma sorted_str_length l : length (sorted_str l) = length l.
Proof. by rewrite sorted_str_Permutation. Qed.

Lemma index_of_range v l : -1 ≤ index_of v l < Z.of_nat (length l).
Proof.
  unfold index_of. destruct (list_find _ l) as [[i x]|] eqn:H; [|lia].
  apply list_find_Some in H as (Hi & _). apply lookup_lt_Some in Hi. lia.
Qed.

Lemma index_of_notin v l : v ∉ l → index_of v l = -1.
Proof.
  intros Hv. unfold index_of.
  destruct (list_find _ l) as [[i x]|] eqn:H; [|done].
  apply list_find_Some in H as (Hi & -> & _).
  exfalso. apply Hv. by eapply list_elem_of_lookup_2.
Qed.

Lemma set_categories_codes_range new c code :
  code ∈ codes (set_categories new c) → -1 ≤ code < Z.of_nat (length new).
Proof.
  unfold set_categories. simpl. intros (c0 & -> & _)%list_elem_of_fmap.
  destruct (c0 <? 0); [lia|].
  destruct (categories c !! Z.to_nat c0); [apply index_of_range|lia].
Qed.

Lemma np_index_is_Ok n code :
  (0 < n)%nat → -1 ≤ code < Z.of_nat n → is_Ok (np_index n code) = true.
Proof.
  intros Hn Hc. unfold np_index. repeat case_decide; simpl; try done. lia.
Qed.

Lemma encode_inv c b :
  _encode c = Ok b → b.1 = categories c ∧ length b.2 = length b.1.
Proof.
  unfold _encode, eye_columns. case_decide as Hn.
  - intros [= <-]. simpl. by rewrite Hn.
  - destruct (map_result (np_index _) _) as [js|e]; simpl; [|discriminate].
    intros [= <-]. simpl. by rewrite length_map, length_seq.
Qed.

Lemma encode_is_Ok new c : is_Ok (_encode (set_categories new c)) = true.
Proof.
  unfold _encode, eye_columns. case_decide as Hn; [done|].
  destruct (map_result (np_index _) _) as [js|e] eqn:H; simpl; [done|].
  assert (is_Ok (map_result (np_index (length (categories (set_categories new c))))
                   (codes (set_categories new c))) = true) as Hok.
  { apply map_result_is_Ok. intros code Hcode. apply np_index_is_Ok.
    - lia.
    - by apply set_categories_codes_range in Hcode. }
  by rewrite H in Hok.
Qed.

(** The [set_categories] loop over the allowlist. *)
Lemma set_categories_loop_notin (covariates : list (string * gset string)) :
  ∀ (d : gmap string categorical) c,
    c ∉ covariates.*1 →
    foldl (λ d cv, alter (set_categories (sorted_str (elements cv.2))) cv.1 d)
      d covariates !! c = d !! c.
Proof.
  induction covariates as [|cv covs IH]; intros d c Hc; simpl; [done|].
  rewrite fmap_cons, not_elem_of_cons in Hc. destruct Hc as [Hne Hc].
  rewrite IH by done. by rewrite lookup_alter_ne.
Qed.

Lemma set_categories_loop_in (covariates : list (string * gset string)) :
  ∀ (d : gmap string categorical) cv,
    NoDup covariates.*1 → cv ∈ covariates →
    foldl (λ d cv, alter (set_categories (sorted_str (elements cv.2))) cv.1 d)
      d covariates !! cv.1
    = set_categories (sorted_str (elements cv.2)) <$> d !! cv.1.
Proof.
  induction covariates as [|cv0 covs IH]; intros d cv Hnd Hin; simpl.
  - by apply elem_of_nil in Hin.
  - rewrite fmap_cons in Hnd. apply NoDup_cons in Hnd as [Hcv0 Hnd].
    apply elem_of_cons in Hin as [->|Hin].
    + rewrite set_categories_loop_notin by done. by rewrite lookup_alter_eq.
    + rewrite IH by done. rewrite lookup_alter_ne; [done|].
      intros Heq. apply Hcv0. rewrite Heq. by apply list_elem_of_fmap_2.
Qed.

Lemma zip_cons_label {A} (k : string) (cats : list string) (rows : list A) :
  ∀ key,
    filter (λ r : (string * string) * A, r.1.1 = key)
      (zip ((λ cat, (k, cat)) <$> cats) rows)
    = if decide (k = key) then zip ((λ cat, (k, cat)) <$> cats) rows else [].
Proof.
  intros key. revert rows. induction cats as [|cat cats IH]; intros rows.
  - simpl. by case_decide.
  - destruct rows as [|row rows]; [simpl; by case_decide|].
    csimpl. rewrite filter_cons. simpl. rewrite IH.
    by case_decide.
Qed.

Lemma rows_of_concat (widths : list nat)
    (blocks : list (string * (list string * list (list Z)))) :
  ∀ b,
    (∀ b', b' ∈ blocks → length b'.2.2 = length b'.2.1) →
    NoDup blocks.*1 → b ∈ blocks →
    rows_of b.1 (pd_concat widths blocks) = zip b.2.1 b.2.2.
Proof.
  unfold rows_of, pd_concat. simpl.
  induction blocks as [|b0 blocks IH]; intros b Hlen Hnd Hin.
  - by apply elem_of_nil in Hin.
  - rewrite fmap_cons in Hnd. apply NoDup_cons in Hnd as [Hb0 Hnd].
    rewrite !bind_cons.
    rewrite zip_with_app by (rewrite length_fmap; symmetry; apply Hlen; left).
    rewrite filter_app, fmap_app, zip_cons_label.
    apply elem_of_cons in Hin as [->|Hin].
    + rewrite decide_True by done.
      assert (filter (λ r : (string * string) * list Z, r.1.1 = b0.1)
                (zip (blocks ≫= λ b1, (λ cat, (b1.1, cat)) <$> b1.2.1)
                   (blocks ≫= λ b1, b1.2.2)) = []) as ->.
      { clear -Hb0 Hlen.
        assert (∀ b', b' ∈ blocks → length b'.2.2 = length b'.2.1) as Hlen'
            by (intros; apply Hlen; by right).
        clear Hlen. induction blocks as [|b1 blocks IH]; [done|].
        rewrite fmap_cons, not_elem_of_cons in Hb0. destruct Hb0 as [Hne Hb0].
        rewrite !bind_cons.
        rewrite zip_with_app
          by (rewrite length_fmap; symmetry; apply Hlen'; left).
        rewrite filter_app, zip_cons_label, decide_False by done.
        simpl. apply IH; [done|]. intros; apply Hlen'; by right. }
      rewrite app_nil_r. clear.
      generalize (b0.2.2). induction (b0.2.1) as [|cat cats IH]; intros rows; [done|].
      destruct rows as [|row rows]; [done|]. csimpl. by rewrite IH.
    + rewrite decide_False.
      * simpl. apply IH; [|done|done]. intros; apply Hlen; by right.
      * intros Heq. apply Hb0. rewrite Heq. by apply list_elem_of_fmap_2.
Qed.

Lemma filter_none {A} (P : A → Prop) `{!∀ x, Decision (P x)} (l : list A) :
  (∀ x, x ∈ l → ¬ P x) → filter P l = [].
Proof.
  induction l as [|x l IH]; intros Hl; [done|].
  rewrite filter_cons_False by (apply Hl; left).
  apply IH. intros y Hy. apply Hl. by right.
Qed.

Section DesignMatrixFacts.
Context {Cell : Type}.
Variable astype_str : Cell → string.

(** C9. For a design table without columns, [design_matrix_from]
    returns a frame with no rows and [len(design)] columns. *)
Theorem design_matrix_from_no_covariates (design : table Cell)
    (covariates : option (list (string * gset string))) :
  columns design = ∅ →
  design_matrix_from astype_str design covariates
  = Ok {| index := []; ncols := nrows design; data := [] |}.
Proof. intros H. unfold design_matrix_from. by rewrite decide_True. Qed.

(** What the allowlist branch hands to [_encode]. *)
Lemma design_matrix_from_allowlist_blocks (design : table Cell)
    (covariates : list (string * gset string)) :
  NoDup covariates.*1 →
  (∀ cv, cv ∈ covariates → is_Some (columns design !! cv.1)) →
  covariates ≠ [] →
  design_matrix_from astype_str design (Some covariates)
  = blocks ←
      map_result
        (λ cv, f ← _encode (set_categories (sorted_str (elements cv.2))
                             (astype_category astype_str
                                (columns design !!! cv.1)));
               Ok (cv.1, f))
        covariates;
    match blocks with
    | [] => Raise (ValueError "not enough values to unpack (expected 2, got 0)")
    | _ =>
        Ok (pd_concat ((λ cv, length (columns design !!! cv.1)) <$> covariates)
              blocks)
    end.
Proof.
  intros Hnd Hpresent Hne. unfold design_matrix_from.
  rewrite decide_False.
  2:{ intros Hempty. destruct covariates as [|cv covs]; [done|].
      destruct (Hpresent cv) as [col Hcol]; [left|].
      by rewrite Hempty, lookup_empty in Hcol. }
  rewrite decide_True.
  2:{ apply filter_none. intros x Hx.
      apply list_elem_of_fmap in Hx as (cv & -> & Hcv).
      rewrite lookup_fmap. destruct (Hpresent cv Hcv) as [col ->]. done. }
  unfold select. rewrite map_result_fmap.
  rewrite (map_result_Ok _
             (λ cv, (cv.1, set_categories (sorted_str (elements cv.2))
                             (astype_category astype_str
                                (columns design !!! cv.1))))).
  2:{ intros cv Hcv. rewrite set_categories_loop_in by done.
      rewrite lookup_fmap. destruct (Hpresent cv Hcv) as [col Hcol].
      rewrite Hcol. simpl. by rewrite (lookup_total_correct _ _ _ Hcol). }
  simpl. rewrite map_result_fmap, <- list_fmap_compose.
  erewrite (list_fmap_ext _ (λ cv, length (columns design !!! cv.1)) covariates);
    [done|].
  intros i cv _. simpl. by rewrite !length_fmap.
Qed.

End DesignMatrixFacts.

(** C3. Two samples with the values [a] and [z] and the allowed set
    [{a, b}]: the column of the second sample, whose value is outside the
    set, is [(0, 1)], the one-hot vector of [b], not a column of zeros. *)
Theorem design_matrix_from_outside_value :
  design_matrix_from id Inputs.design (Some Inputs.allowlist)
  = Ok {| index := [("c", "a"); ("c", "b")];
          ncols := 2;
          data := [[1; 0]; [0; 1]] |}.
Proof. vm_compute. reflexivity. Qed.

Lemma set_categories_outside new c j code v :
  codes c !! j = Some code → 0 ≤ code →
  categories c !! Z.to_nat code = Some v → v ∉ new →
  codes (set_categories new c) !! j = Some (-1).
Proof.
  intros Hj Hcode Hv Hnew. unfold set_categories. simpl.
  rewrite list_lookup_fmap, Hj. simpl.
  destruct (Z.ltb_spec code 0) as [?|_]; [lia|].
  by rewrite Hv, index_of_notin.
Qed.

(** A sample with code [-1] is encoded as the last category. *)
Lemma encode_code_minus_one c j b :
  codes c !! j = Some (-1) → _encode c = Ok b →
  ∀ i, (i < length (categories c))%nat →
       b.2 !! i ≫= (λ row, row !! j)
       = Some (if decide (i = (length (categories c) - 1)%nat) then 1 else 0).
Proof.
  intros Hj. unfold _encode, eye_columns.
  case_decide as Hn; [intros _ i Hi; lia|].
  destruct (map_result (np_index _) (codes c)) as [js|e] eqn:Hjs;
    simpl; [|discriminate].
  intros [= <-] i Hi. simpl.
  apply map_result_inv in Hjs.
  destruct (Forall2_lookup_l _ _ _ _ _ Hjs Hj) as (y & Hy & Hidx).
  change (map ?f ?l) with (f <$> l).
  rewrite list_lookup_fmap, lookup_seq_lt by done. simpl.
  change (map ?f ?l) with (f <$> l).
  rewrite list_lookup_fmap, Hy. simpl. f_equal.
  unfold np_index in Hidx. rewrite decide_False in Hidx by lia.
  rewrite decide_True in Hidx by lia. injection Hidx as <-.
  unfold eye. repeat case_decide; try done; lia.
Qed.

Lemma design_matrix_from_no_covariates_witness :
  design_matrix_from id (Table 3 ∅) None
  = Ok {| index := []; ncols := 3; data := [] |}.
Proof.
  apply (design_matrix_from_no_covariates id (Table 3 ∅) None). reflexivity.
Defined.



(** ** [Slide.__getitem__] *)

Lemma filter_all {A} (P : A → Prop) `{!∀ x, Decision (P x)} (l : list A) :
  (∀ x, x ∈ l → P x) → filter P l = l.
Proof.
  induction l as [|x l IH]; intros Hl; [done|].
  rewrite filter_cons_True by (apply Hl; left).
  f_equal. apply IH. intros y Hy. apply Hl. by right.
Qed.

(** Ranks assigned by [searchsorted] *)
Lemma filter_lt_strictly_sorted (l : list Z) :
  StronglySorted Z.lt l →
  ∀ i x, l !! i = Some x → filter (λ y, y < x) l = take i l.
Proof.
  induction 1 as [|a l Hsorted IH Hall]; intros i x Hi; [done|].
  destruct i as [|i]; simpl in Hi.
  - injection Hi as ->. rewrite filter_cons_False by lia. simpl.
    apply filter_none. intros y Hy. rewrite Forall_forall in Hall.
    specialize (Hall y Hy). lia.
  - rewrite filter_cons_True.
    + simpl. f_equal. by apply IH.
    + rewrite Forall_forall in Hall. apply Hall. by eapply list_elem_of_lookup_2.
Qed.

Lemma sorted_int_strictly_sorted (l : list Z) :
  NoDup l → StronglySorted Z.lt (sorted_int l).
Proof.
  intros Hnd. unfold sorted_int.
  assert (StronglySorted Z.le (merge_sort Z.le l)) as Hs
      by apply (StronglySorted_merge_sort Z.le).
  assert (NoDup (merge_sort Z.le l)) as Hnd'
      by (by rewrite merge_sort_Permutation).
  induction Hs as [|a l' Hs IH Hall]; constructor.
  - apply IH. by apply NoDup_cons in Hnd' as [].
  - apply NoDup_cons in Hnd' as [Ha _].
    rewrite Forall_forall in *. intros y Hy. specialize (Hall y Hy).
    assert (a ≠ y) by (intros ->; done). lia.
Qed.

Lemma unique_labels_strictly_sorted (label : list (list Z)) :
  StronglySorted Z.lt (Slide.unique_labels label).
Proof. apply sorted_int_strictly_sorted, NoDup_remove_dups. Qed.

Lemma searchsorted_position (label : list (list Z)) (i : nat) (x : Z) :
  Slide.unique_labels label !! i = Some x →
  Slide.searchsorted (Slide.unique_labels label) x = Z.of_nat i.
Proof.
  intros Hi. unfold Slide.searchsorted.
  rewrite (filter_lt_strictly_sorted _ (unique_labels_strictly_sorted label) i x Hi).
  rewrite length_take. apply lookup_lt_Some in Hi. lia.
Qed.

(** In a sorted list of distinct non-negative ids, the [k]-th non-zero id
    sits at position [k + 1] when [0] is among them and at position [k]
    when it is not. *)
Lemma positive_labels_position (l : list Z) :
  StronglySorted Z.lt l → (∀ x, x ∈ l → 0 ≤ x) →
  ∀ k x, filter (λ y, 0 < y) l !! k = Some x →
         l !! (if decide (0 ∈ l) then S k else k) = Some x.
Proof.
  intros Hs Hnonneg k x Hk. destruct Hs as [|a l Hs Hall]; [done|].
  assert (filter (λ y, 0 < y) l = l) as Hl.
  { apply filter_all. intros y Hy.
    rewrite Forall_forall in Hall. specialize (Hall y Hy).
    specialize (Hnonneg a ltac:(left)). lia. }
  assert (0 ∉ l) as H0l.
  { intros H0. rewrite Forall_forall in Hall. specialize (Hall 0 H0).
    specialize (Hnonneg a ltac:(left)). lia. }
  destruct (decide (a = 0)) as [->|Hne].
  - rewrite decide_True by left. rewrite filter_cons_False in Hk by lia.
    by rewrite Hl in Hk.
  - rewrite decide_False by (rewrite elem_of_cons; intros [?|?]; done).
    rewrite filter_cons_True in Hk by (specialize (Hnonneg a ltac:(left)); lia).
    by rewrite Hl in Hk.
Qed.

Lemma elem_of_unique_labels (label : list (list Z)) (x : Z) :
  x ∈ Slide.unique_labels label ↔ x ∈ concat label.
Proof.
  unfold Slide.unique_labels, sorted_int.
  rewrite merge_sort_Permutation. apply elem_of_remove_dups.
Qed.

(** The rank of the [k]-th surviving non-zero id is [k + 1] if the crop
    holds the background id [0], and [k] if it does not. *)
Lemma searchsorted_rank (label : list (list Z)) (k : nat) (x : Z) :
  (∀ y, y ∈ concat label → 0 ≤ y) →
  filter (λ y, 0 < y) (Slide.unique_labels label) !! k = Some x →
  Slide.searchsorted (Slide.unique_labels label) x
  = if decide (0 ∈ concat label) then Z.of_nat k + 1 else Z.of_nat k.
Proof.
  intros Hnonneg Hk.
  pose proof (positive_labels_position _
                (unique_labels_strictly_sorted label)) as Hpos.
  specialize (Hpos (λ y Hy, Hnonneg y (proj1 (elem_of_unique_labels label y) Hy))
                k x Hk).
  apply searchsorted_position in Hpos. rewrite Hpos.
  destruct (decide (0 ∈ Slide.unique_labels label)) as [Hin|Hnin].
  - rewrite decide_True by (by apply elem_of_unique_labels). lia.
  - rewrite decide_False; [done|]. by rewrite <- elem_of_unique_labels.
Qed.

Section SlideFacts.
Context {Image ImageTensor : Type}.
Variable binary_fill_holes : list (list bool) → list (list bool).
Variable normalize : Image → ImageTensor.

#[local] Abbreviation patch_at := (Slide.patch_at binary_fill_holes normalize).
#[local] Abbreviation getitem := (Slide.__getitem__ binary_fill_holes normalize).
#[local] Abbreviation surviving_ids := (Slide.surviving_ids binary_fill_holes).

Lemma patch_at_none_surviving (self : Slide.t Image) (idx : Z) :
  surviving_ids self idx = Ok [] → patch_at self idx = Ok None.
Proof.
  unfold Slide.surviving_ids, Slide.patch_at.
  destruct (Slide._get_patch self idx) as [il|e]; simpl; [|discriminate].
  intros [= ->]. done.
Qed.

Lemma take_rows_in_range (self : Slide.t Image) (rows : list Z) :
  (∀ r, r ∈ rows → 0 ≤ r < Z.of_nat (length (Slide._data self))) →
  ∃ data, Slide.take_rows self rows = Ok data ∧ length data = length rows.
Proof.
  intros Hrows. exists ((λ r, Slide._data self !!! Z.to_nat r) <$> rows).
  split; [|by rewrite length_fmap].
  apply map_result_Ok. intros r Hr.
  destruct (lookup_lt_is_Some_2 (Slide._data self) (Z.to_nat r)) as [row Hrow].
  { specialize (Hrows r Hr). lia. }
  rewrite Hrow. by rewrite (list_lookup_total_correct _ _ _ Hrow).
Qed.

Lemma patch_at_surviving (self : Slide.t Image) (idx : Z) (ids : list Z) :
  surviving_ids self idx = Ok ids → ids ≠ [] →
  (∀ x, x ∈ ids → x ≤ Z.of_nat (length (Slide._data self))) →
  ∃ p, patch_at self idx = Ok (Some p)
       ∧ length (Slide.data p) = length ids.
Proof.
  unfold Slide.surviving_ids, Slide.patch_at.
  destruct (Slide._get_patch self idx) as [il|e]; simpl; [|discriminate].
  intros [= <-] Hne Hrange.
  set (ids := filter (λ x, 0 < x) _) in *.
  destruct (take_rows_in_range self ((λ x, x - 1) <$> ids)) as (data & -> & Hlen).
  { intros r (x & -> & Hx)%list_elem_of_fmap. specialize (Hrange x Hx).
    apply list_elem_of_filter in Hx as [Hx _]. lia. }
  simpl. rewrite length_fmap in Hlen. rewrite decide_False.
  - eexists. split; [reflexivity|]. done.
  - rewrite Hlen. by destruct ids.
Qed.

Lemma getitem_skips (self : Slide.t Image) (n : nat) : ∀ idx,
  (n = 0%nat ∨ Slide.__len__ self ≠ 0%nat) →
  (∀ i, (i < n)%nat → patch_at self (Slide.nth_index self i idx) = Ok None) →
  ∀ fuel, getitem (n + fuel) self idx
          = getitem fuel self (Slide.nth_index self n idx).
Proof.
  induction n as [|n IH]; intros idx Hlen Hskip fuel; [done|].
  destruct Hlen as [?|Hlen]; [done|].
  cbn [Nat.add Slide.__getitem__].
  pose proof (Hskip 0%nat ltac:(lia)) as H0. cbn in H0.
  rewrite H0, decide_False by done.
  rewrite IH.
  - unfold Slide.nth_index. by rewrite Nat.iter_succ_r.
  - by right.
  - intros i Hi. specialize (Hskip (S i) ltac:(lia)).
    unfold Slide.nth_index in *. by rewrite Nat.iter_succ_r in Hskip.
Qed.

(** C6, as the code has it. If the [n]-th index after [idx] in the
    order [i], [(i + 1) mod len], ... is the first whose crop keeps a
    non-zero id, and the ids it keeps have count rows, then
    [__getitem__(idx)] needs [n + 1] nested calls: within any greater
    or equal depth of recursion it returns the patch of that index,
    which has one count row per id kept, so at least one; within a
    smaller depth it does not return. *)
Theorem getitem_returns_first_surviving (self : Slide.t Image) (idx : Z)
    (n : nat) (ids : list Z) :
  (n = 0%nat ∨ Slide.__len__ self ≠ 0%nat) →
  (∀ i, (i < n)%nat →
     surviving_ids self (Slide.nth_index self i idx) = Ok []) →
  surviving_ids self (Slide.nth_index self n idx) = Ok ids →
  ids ≠ [] →
  (∀ x, x ∈ ids → x ≤ Z.of_nat (length (Slide._data self))) →
  ∃ p, (∀ fuel, (n < fuel)%nat → getitem fuel self idx = Some (Ok p))
       ∧ (∀ fuel, (fuel ≤ n)%nat → getitem fuel self idx = None)
       ∧ patch_at self (Slide.nth_index self n idx) = Ok (Some p)
       ∧ length (Slide.data p) = length ids
       ∧ (1 ≤ length (Slide.data p))%nat.
Proof.
  intros Hlen Hskip Hids Hne Hrange.
  destruct (patch_at_surviving self _ ids Hids Hne Hrange) as (p & Hp & Hdata).
  exists p. split; [|split; [|split; [done|split; [done|]]]].
  - intros fuel Hfuel.
    replace fuel with (n + S (fuel - S n))%nat by lia.
    rewrite getitem_skips; [|done|].
    + simpl. by rewrite Hp.
    + intros i Hi. apply patch_at_none_surviving. by apply Hskip.
  - intros fuel Hfuel.
    replace fuel with (fuel + 0)%nat by lia.
    rewrite getitem_skips; [done| |].
    + destruct Hlen as [->|Hlen]; [left; lia|by right].
    + intros i Hi. apply patch_at_none_surviving. apply Hskip. lia.
  - rewrite Hdata. destruct ids; [done|simpl; lia].
Qed.

(** A patch that [__getitem__] returns has at least one count row. *)
Lemma getitem_patch_has_rows (self : Slide.t Image) (fuel : nat) :
  ∀ idx p, getitem fuel self idx = Some (Ok p) →
           (1 ≤ length (Slide.data p))%nat.
Proof.
  induction fuel as [|fuel IH]; intros idx p; simpl; [discriminate|].
  unfold Slide.patch_at at 1.
  destruct (Slide._get_patch self idx) as [il|e]; simpl; [|discriminate].
  destruct (Slide.take_rows self _) as [rows|e]; simpl; [|discriminate].
  destruct (decide (length rows = 0%nat)) as [Hz|Hnz].
  - destruct (decide (Slide.__len__ self = 0%nat)); [discriminate|apply IH].
  - intros [= <-]. simpl. lia.
Qed.

(** When no index keeps a non-zero id, no depth of recursion suffices. *)
Lemma getitem_never_returns (self : Slide.t Image) :
  Slide.__len__ self ≠ 0%nat →
  (∀ idx, patch_at self idx = Ok None) →
  ∀ fuel idx, getitem fuel self idx = None.
Proof.
  intros Hlen Hnone fuel. induction fuel as [|fuel IH]; intros idx; [done|].
  simpl. rewrite Hnone. by rewrite decide_False.
Qed.
End SlideFacts.

Lemma getitem_returns_first_surviving_witness :
  Slide.nth_index Inputs.sweep_slide 1 1 = 2
  ∧ Slide.nth_index Inputs.sweep_slide 2 1 = 0
  ∧ ∃ p, Slide.__getitem__ fill_holes id 3 Inputs.sweep_slide 1 = Some (Ok p)
         ∧ Slide.__getitem__ fill_holes id 2 Inputs.sweep_slide 1 = None
         ∧ Slide.patch_at fill_holes id Inputs.sweep_slide 0 = Ok (Some p)
         ∧ (1 ≤ length (Slide.data p))%nat.
Proof.
  split; [reflexivity|]. split; [reflexivity|].
  destruct (getitem_returns_first_surviving fill_holes id
              Inputs.sweep_slide 1 2%nat [2])
    as (p & Hp & Hnone & Hat & _ & Hrows).
  - right. discriminate.
  - intros [|[|i]] Hi; [vm_compute; reflexivity ..|lia].
  - vm_compute. reflexivity.
  - discriminate.
  - intros x Hx. apply list_elem_of_singleton in Hx as ->. simpl. lia.
  - exists p. split; [apply Hp; lia|]. split; [apply Hnone; lia|].
    split; [exact Hat | exact Hrows].
Defined.

(** C6 fails: the slide has a segment with a non-zero count row, but the
    segment touches the border of every crop, so that no crop keeps it
    and [__getitem__] returns at no recursion depth. *)
Lemma getitem_border_slide_never_returns :
  Slide._zero_data Inputs.border_slide = [0]
  ∧ Slide._get_patch Inputs.border_slide 0 = Ok ((), [[1]])
  ∧ ¬ ∃ fuel p,
        Slide.__getitem__ fill_holes id fuel Inputs.border_slide 0 = Some (Ok p).
Proof.
  split; [reflexivity|]. split; [reflexivity|].
  intros (fuel & p & H).
  rewrite (getitem_never_returns fill_holes id Inputs.border_slide) in H.
  - discriminate.
  - discriminate.
  - intros idx. vm_compute. reflexivity.
Qed.

(** C7. A crop without background: segment 1 enclosed by segment 2,
    which has no counts. The ids kept are 1 and 2; id 1, the smallest,
    gets rank 0 and id 2 rank 1, while both count rows are returned. *)
Theorem getitem_ranks_without_background :
  Slide.__getitem__ fill_holes id 1 Inputs.ring_slide 0
  = Some (Ok {| Slide.image := ();
                Slide.label := [[1; 1; 1]; [1; 0; 1]; [1; 1; 1]];
                Slide.data := [[5]; [0]];
                Slide.type := "ST" |}).
Proof. vm_compute. reflexivity. Qed.

(** * Further properties *)

(** A decidable closed proposition, settled by evaluation. *)
Ltac decide_by_compute :=
  match goal with
  | |- ?P => apply (bool_decide_unpack P); vm_compute; exact I
  end.

(** ** [find_device] and [to_device] *)

(** Induction on Python values, with the hypothesis for every element of
    a list and every value of a dict. *)
Lemma pyobj_nested_ind (P : pyobj → Prop) :
  (∀ data dev, P (Tensor data dev)) →
  (∀ xs, Forall P xs → P (PyList xs)) →
  (∀ kvs, Forall (λ kv, P kv.2) kvs → P (PyDictObj kvs)) →
  (∀ xs, P (PyTuple xs)) →
  (∀ n, P (PyInt n)) →
  (∀ s, P (PyStr s)) →
  P PyNone →
  ∀ x, P x.
Proof.
  intros HT HL HD HTu HI HS HN.
  fix IH 1. intros [data dev|xs|kvs|xs|n|s|].
  - apply HT.
  - apply HL. induction xs as [|x xs IHxs]; constructor; [apply IH|apply IHxs].
  - apply HD. induction kvs as [|[k v] kvs IHkvs]; constructor;
      [apply IH|apply IHkvs].
  - apply HTu.
  - apply HI.
  - apply HS.
  - apply HN.
Qed.

Lemma first_some_head {A B} (f : A → option B) (g : A → list B) (l : list A) :
  Forall (λ x, f x = head (g x)) l → first_some f l = head (l ≫= g).
Proof.
  induction 1 as [|x l Hx _ IH]; [done|].
  rewrite bind_cons. simpl. rewrite Hx.
  destruct (g x) as [|b bs]; simpl; [exact IH|done].
Qed.

(** X1. [find_device] returns the device of the first tensor that a
    depth-first walk through lists and dict values reaches, and [None]
    when there is none; tensors inside tuples are not seen. *)
Theorem find_device_first_tensor (x : pyobj) :
  find_device x = head (tensor_devices x).
Proof.
  induction x as [data dev|xs IH|kvs IH|xs|n|s|] using pyobj_nested_ind;
    try done.
  - simpl. by apply first_some_head.
  - simpl. by apply (first_some_head _ (λ kv, tensor_devices kv.2)).
Qed.

(** X2. After [to_device], every tensor that is reached through lists
    and dict values is on the target device, and there are as many of
    them as before. *)
Theorem to_device_tensor_devices (default_device : device) (x : pyobj)
    (dev : option device) :
  tensor_devices (to_device default_device x dev)
  = replicate (length (tensor_devices x)) (default default_device dev).
Proof.
  unfold to_device. generalize (default default_device dev). intros d.
  induction x as [data dev'|xs IH|kvs IH|xs|n|s|] using pyobj_nested_ind;
    try done.
  - simpl. induction IH as [|x xs Hx _ IHxs]; [done|].
    cbn [map]. rewrite !bind_cons, length_app, replicate_add.
    by rewrite Hx, IHxs.
  - simpl. induction IH as [|kv kvs Hx _ IHxs]; [done|].
    cbn [map]. rewrite !bind_cons, length_app, replicate_add. simpl.
    by rewrite Hx, IHxs.
Qed.

(** X3. [find_device] on the result of [to_device] returns the target
    device if [find_device] found a tensor in the argument, and [None]
    otherwise. *)
Theorem find_device_to_device (default_device : device) (x : pyobj)
    (dev : option device) :
  find_device (to_device default_device x dev)
  = (λ _, default default_device dev) <$> find_device x.
Proof.
  rewrite !find_device_first_tensor, to_device_tensor_devices.
  by destruct (tensor_devices x).
Qed.

(** X4. Moving twice is moving to the second device:
    [to_device(to_device(x, d1), d2) = to_device(x, d2)]; in particular
    [to_device] is idempotent. *)
Theorem to_device_twice (default_device : device) (x : pyobj)
    (dev1 dev2 : option device) :
  to_device default_device (to_device default_device x dev1) dev2
  = to_device default_device x dev2.
Proof.
  unfold to_device.
  generalize (default default_device dev1) (default default_device dev2).
  intros d1 d2.
  induction x as [data dev'|xs IH|kvs IH|xs|n|s|] using pyobj_nested_ind;
    try done.
  - simpl. f_equal. induction IH as [|x xs Hx _ IHxs]; [done|].
    simpl. by rewrite Hx, IHxs.
  - simpl. f_equal. induction IH as [|kv kvs Hx _ IHxs]; [done|].
    simpl. by rewrite Hx, IHxs.
Qed.

(** ** [compose] *)

(** X5. [compose(f, *gs, h, *hs)] applies [compose(h, *hs)] first and
    [compose(f, *gs)] to its result; when the inner part raises, the
    outer functions are not called and the exception propagates. *)
Theorem compose_app {A} (f : A → result A) (gs : list (A → result A))
    (h : A → result A) (hs : list (A → result A)) (x : A) :
  compose f (gs ++ h :: hs) x = (y ← compose h hs x; compose f gs y).
Proof.
  revert f. induction gs as [|g gs IH]; intros f; simpl; [done|].
  rewrite IH. by destruct (compose h hs x).
Qed.

(** ** [collect_items] *)
Section CollectItemsFacts.
Context {V S : Type}.
Variable item : V → result S.

Lemma set_fresh (d : PyDict.t S) k s :
  k ∉ PyDict.keys d → PyDict.set d k s = d ++ [(k, s)].
Proof.
  induction d as [|[k0 s0] d IH]; simpl; intros Hk; [done|].
  rewrite not_elem_of_cons in Hk. destruct Hk as [Hne Hk].
  rewrite decide_False by done. by rewrite IH.
Qed.

Lemma collect_items_loop (d : PyDict.t V) : ∀ acc : PyDict.t S,
  NoDup (PyDict.keys acc ++ PyDict.keys d) →
  (∀ kv e, kv ∈ d → item kv.2 = Raise e → dropped_silently e) →
  for_each
    (λ d_ kv,
       try_except (s ← item kv.2; Ok (PyDict.set d_ kv.1 s))
         (λ e, match e with
               | ValueError _ | AttributeError => Some (Ok d_)
               | _ => None
               end))
    acc d
  = Ok (acc ++ omap (kept item) d).
Proof.
  induction d as [|[k v] d IH]; intros acc Hnd Hitem; simpl.
  - by rewrite app_nil_r.
  - unfold kept at 1. simpl.
    assert (k ∉ PyDict.keys acc) as Hk.
    { apply NoDup_app in Hnd as (_ & Hd & _). intros Hin. apply (Hd _ Hin). left. }
    destruct (item v) as [s|e] eqn:Hv; simpl.
    + rewrite IH.
      * rewrite set_fresh by done. by rewrite <- app_assoc.
      * rewrite set_fresh by done. unfold PyDict.keys in *.
        rewrite fmap_app, <- app_assoc. exact Hnd.
      * intros kv e Hkv. apply Hitem. by right.
    + assert (dropped_silently e) as [->|[msg ->]]
          by (apply (Hitem (k, v)); [left|done]); simpl.
      * apply IH.
        -- unfold PyDict.keys in *. simpl in Hnd.
           apply NoDup_app in Hnd as (H1 & H2 & H3).
           apply NoDup_cons in H3 as [_ H3].
           apply NoDup_app. split; [done|]. split; [|done].
           intros x Hx Hx'. apply (H2 x Hx). by right.
        -- intros kv e Hkv. apply Hitem. by right.
      * apply IH.
        -- unfold PyDict.keys in *. simpl in Hnd.
           apply NoDup_app in Hnd as (H1 & H2 & H3).
           apply NoDup_cons in H3 as [_ H3].
           apply NoDup_app. split; [done|]. split; [|done].
           intros x Hx Hx'. apply (H2 x Hx). by right.
        -- intros kv e Hkv. apply Hitem. by right.
Qed.

(** X6. When [item()] raises nothing but [ValueError] or
    [AttributeError], [collect_items] returns, in the order of the input,
    exactly the entries whose [item()] succeeds, each with its scalar;
    the other entries are dropped without an error. *)
Theorem collect_items_keeps_scalars (d : PyDict.t V) :
  PyDict.wf d →
  (∀ kv e, kv ∈ d → item kv.2 = Raise e → dropped_silently e) →
  collect_items item d = Ok (omap (kept item) d).
Proof.
  intros Hwf Hitem. unfold collect_items.
  by rewrite collect_items_loop.
Qed.

(** X7. The first entry whose [item()] raises an exception other than
    [ValueError] and [AttributeError] makes [collect_items] raise that
    exception. *)
Theorem collect_items_propagates (d1 d2 : PyDict.t V) (k : string) (v : V)
    (e : exn) :
  PyDict.wf (d1 ++ (k, v) :: d2) →
  (∀ kv e, kv ∈ d1 → item kv.2 = Raise e → dropped_silently e) →
  item v = Raise e → ¬ dropped_silently e →
  collect_items item (d1 ++ (k, v) :: d2) = Raise e.
Proof.
  intros Hwf H1 Hv He. unfold collect_items.
  assert (∀ (l1 l2 : PyDict.t V) (acc acc' : PyDict.t S) body,
            for_each body acc l1 = Ok acc' →
            for_each body acc (l1 ++ l2) = for_each body acc' l2) as Happ.
  { clear. induction l1 as [|x l1 IH]; intros l2 acc acc' body; simpl.
    - by intros [= ->].
    - destruct (body acc x) as [a|e]; simpl; [apply IH|discriminate]. }
  erewrite Happ.
  2:{ apply collect_items_loop; [|done].
      unfold PyDict.wf, PyDict.keys in *. rewrite fmap_app in Hwf.
      by apply NoDup_app in Hwf as (? & _ & _). }
  simpl. rewrite Hv. simpl.
  destruct e; try done; exfalso; apply He; [by left|right; eauto].
Qed.
End CollectItemsFacts.

(** ** [zip_dicts], continued *)

Lemma for_each_app {A B} (body : A → B → result A) (l1 l2 : list B) :
  ∀ acc acc', for_each body acc l1 = Ok acc' →
              for_each body acc (l1 ++ l2) = for_each body acc' l2.
Proof.
  induction l1 as [|x l1 IH]; intros acc acc'; simpl.
  - by intros [= ->].
  - destruct (body acc x) as [a|e]; simpl; [apply IH|discriminate].
Qed.

Section ZipDictsMore.
Context {V : Type}.

Lemma zip_dicts_all_subset (ds : list (PyDict.t V)) :
  ∀ d : PyDict.t (list V),
    (∀ d_, d_ ∈ ds →
       PyDict.wf d_ ∧ ∀ k, k ∈ PyDict.keys d_ → k ∈ PyDict.keys d) →
    ∃ d', for_each (λ d d_, for_each zip_dicts_item d d_) d ds = Ok d'
          ∧ PyDict.keys d' = PyDict.keys d
          ∧ ∀ k, PyDict.get d' k =
                 (λ l, l ++ omap (λ d_, PyDict.get d_ k) ds) <$> PyDict.get d k.
Proof.
  induction ds as [|d_ ds IH]; simpl; intros d Hall.
  - exists d. split; [done|]. split; [done|]. intros k.
    destruct (PyDict.get d k); simpl; [by rewrite app_nil_r|done].
  - destruct (Hall d_) as [Hwf Hkeys_]; [left|].
    destruct (zip_dicts_one d_ d Hwf Hkeys_) as (d1 & Hrun1 & Hkeys1 & Hget1).
    rewrite Hrun1. simpl.
    destruct (IH d1) as (d' & Hrun & Hkeys & Hget).
    { intros d2 Hd2. rewrite Hkeys1. apply Hall. by right. }
    exists d'. split; [done|]. split; [congruence|].
    intros k. rewrite Hget, Hget1.
    destruct (PyDict.get d_ k) as [v|]; simpl; [|done].
    destruct (PyDict.get d k); simpl; [|done].
    by rewrite <- app_assoc.
Qed.

(** X8. When every dictionary's keys are among the keys of the first,
    [zip_dicts] returns a dictionary with the keys of the first, in its
    order, that maps each key to the values of the dictionaries that have
    the key, in input order; a dictionary that lacks a key is passed over
    for that key. *)
Theorem zip_dicts_keys_of_first (d0 : PyDict.t V) (ds : list (PyDict.t V)) :
  (∀ d_, d_ ∈ d0 :: ds → PyDict.wf d_) →
  (∀ d_ k, d_ ∈ ds → k ∈ PyDict.keys d_ → k ∈ PyDict.keys d0) →
  ∃ d, zip_dicts (d0 :: ds) = Ok d
       ∧ PyDict.keys d = PyDict.keys d0
       ∧ ∀ k, k ∈ PyDict.keys d0 →
           PyDict.get d k = Some (omap (λ d_, PyDict.get d_ k) (d0 :: ds)).
Proof.
  intros Hwf Hsub. unfold zip_dicts.
  destruct (zip_dicts_init (V:=V) (PyDict.keys d0) []) as [Hkeys0 Hget0].
  { apply (Hwf d0). left. }
  simpl in Hkeys0, Hget0.
  set (dinit := foldl (λ d k, PyDict.set d k []) [] (PyDict.keys d0)) in *.
  destruct (zip_dicts_all_subset (d0 :: ds) dinit) as (d & Hrun & Hkeys & Hget).
  { intros d_ Hd_. split; [by apply Hwf|]. intros k Hk. rewrite Hkeys0.
    apply elem_of_cons in Hd_ as [->|Hd_]; [done|]. by eapply Hsub. }
  exists d. split; [done|]. split; [congruence|].
  intros k Hk. rewrite Hget, Hget0. by rewrite decide_True.
Qed.

(** X9. The first key, in iteration order, that the first dictionary
    does not have makes [zip_dicts] raise [KeyError] with that key. *)
Theorem zip_dicts_extra_key (d0 : PyDict.t V) (ds1 ds2 : list (PyDict.t V))
    (items1 items2 : PyDict.t V) (k : string) (v : V) :
  (∀ d_, d_ ∈ d0 :: ds1 → PyDict.wf d_) →
  PyDict.wf (items1 ++ (k, v) :: items2) →
  (∀ d_ k', d_ ∈ ds1 → k' ∈ PyDict.keys d_ → k' ∈ PyDict.keys d0) →
  (∀ k', k' ∈ PyDict.keys items1 → k' ∈ PyDict.keys d0) →
  k ∉ PyDict.keys d0 →
  zip_dicts (d0 :: ds1 ++ (items1 ++ (k, v) :: items2) :: ds2)
  = Raise (KeyError k).
Proof.
  intros Hwf Hwf_ Hsub1 Hsub_ Hk. unfold zip_dicts.
  destruct (zip_dicts_init (V:=V) (PyDict.keys d0) []) as [Hkeys0 _].
  { apply (Hwf d0). left. }
  simpl in Hkeys0.
  set (dinit := foldl (λ d k, PyDict.set d k []) [] (PyDict.keys d0)) in *.
  destruct (zip_dicts_all_subset (d0 :: ds1) dinit) as (d & Hrun & Hkeys & _).
  { intros d_ Hd_. split; [by apply Hwf|]. intros k' Hk'. rewrite Hkeys0.
    apply elem_of_cons in Hd_ as [->|Hd_]; [done|]. by eapply Hsub1. }
  rewrite (app_comm_cons ds1 _ d0).
  rewrite (for_each_app _ _ _ _ _ Hrun). simpl.
  destruct (zip_dicts_one items1 d) as (d' & Hrun' & Hkeys' & _).
  { unfold PyDict.wf, PyDict.keys in *. rewrite fmap_app in Hwf_.
    by apply NoDup_app in Hwf_ as (? & _ & _). }
  { intros k' Hk'. rewrite Hkeys, Hkeys0. by apply Hsub_. }
  rewrite (for_each_app _ _ _ _ _ Hrun'). cbn [for_each].
  assert (PyDict.get d' k = None) as Hnone.
  { apply eq_None_not_Some. rewrite get_is_Some, Hkeys', Hkeys, Hkeys0. done. }
  assert (zip_dicts_item d' (k, v) = Raise (KeyError k)) as ->; [|done].
  unfold zip_dicts_item, append_at, PyDict.getitem. cbn [fst snd].
  by rewrite Hnone.
Qed.
End ZipDictsMore.

Lemma zip_dicts_keys_of_first_witness :
  zip_dicts [[("a", 1); ("b", 2)]; [("b", 4)]]
  = Ok [("a", [1]); ("b", [2; 4])].
Proof.
  destruct (zip_dicts_keys_of_first [("a", 1); ("b", 2)] [[("b", 4)]])
    as (d & Hd & _).
  - intros d_ Hd_.
    apply elem_of_cons in Hd_ as [->|Hd_];
      [|apply list_elem_of_singleton in Hd_ as ->];
      decide_by_compute.
  - intros d_ k Hd_ Hk. apply list_elem_of_singleton in Hd_ as ->.
    apply list_elem_of_singleton in Hk as ->.
    decide_by_compute.
  - reflexivity.
Defined.

Lemma zip_dicts_extra_key_witness :
  zip_dicts [[("a", 1)]; [("a", 2)]; [("a", 3); ("z", 4); ("y", 5)]; [("q", 6)]]
  = Raise (KeyError "z").
Proof.
  apply (zip_dicts_extra_key [("a", 1)] [[("a", 2)]] [[("q", 6)]]
           [("a", 3)] [("y", 5)] "z" 4).
  - intros d_ Hd_.
    apply elem_of_cons in Hd_ as [->|Hd_];
      [|apply list_elem_of_singleton in Hd_ as ->];
      decide_by_compute.
  - decide_by_compute.
  - intros d_ k Hd_ Hk. apply list_elem_of_singleton in Hd_ as ->. exact Hk.
  - intros k' Hk'. exact Hk'.
  - decide_by_compute.
Defined.

(** ** [design_matrix_from], continued *)

Lemma map_result_app_raise {A B} (f : A → result B) (l1 l2 : list A) (x : A)
    (e : exn) :
  (∀ y, y ∈ l1 → is_Ok (f y) = true) → f x = Raise e →
  map_result f (l1 ++ x :: l2) = Raise e.
Proof.
  induction l1 as [|y l1 IH]; intros Hl1 Hx; simpl.
  - by rewrite Hx.
  - pose proof (Hl1 y ltac:(left)) as Hy.
    destruct (f y); [|discriminate]. simpl.
    rewrite IH; [done| |done]. intros z Hz. apply Hl1. by right.
Qed.

Lemma index_of_in v l :
  v ∈ l → 0 ≤ index_of v l ∧ l !! Z.to_nat (index_of v l) = Some v.
Proof.
  intros Hv. unfold index_of.
  destruct (list_find (λ x, x = v) l) as [[i x]|] eqn:H.
  - apply list_find_Some in H as (Hi & -> & _). split; [lia|].
    by rewrite Nat2Z.id.
  - apply list_find_None in H. rewrite Forall_forall in H.
    by destruct (H v Hv).
Qed.

(** A sample with a non-negative code is encoded as that category. *)
Lemma encode_column c j code b :
  codes c !! j = Some code → 0 ≤ code → _encode c = Ok b →
  ∀ i, (i < length (categories c))%nat →
       b.2 !! i ≫= (λ row, row !! j) = Some (eye i (Z.to_nat code)).
Proof.
  intros Hj Hcode. unfold _encode, eye_columns.
  case_decide as Hn; [intros _ i Hi; lia|].
  destruct (map_result (np_index _) (codes c)) as [js|e] eqn:Hjs;
    simpl; [|discriminate].
  intros [= <-] i Hi. simpl.
  apply map_result_inv in Hjs.
  destruct (Forall2_lookup_l _ _ _ _ _ Hjs Hj) as (y & Hy & Hidx).
  change (map ?f ?l) with (f <$> l).
  rewrite list_lookup_fmap, lookup_seq_lt by done. simpl.
  change (map ?f ?l) with (f <$> l).
  rewrite list_lookup_fmap, Hy. simpl. f_equal.
  unfold np_index in Hidx. case_decide; [|case_decide; [lia|discriminate]].
  by injection Hidx as <-.
Qed.

(** Without categories the block has no row, whatever the codes are. *)
Lemma encode_no_categories c :
  categories c = [] → _encode c = Ok ([], []).
Proof. intros Hcat. unfold _encode, eye_columns. by rewrite Hcat. Qed.

Section DesignMatrixMore.
Context {Cell : Type}.
Variable astype_str : Cell → string.

Lemma astype_category_code (col : list Cell) (j : nat) (cell : Cell) :
  col !! j = Some cell →
  ∃ code, codes (astype_category astype_str col) !! j = Some code
          ∧ 0 ≤ code
          ∧ categories (astype_category astype_str col) !! Z.to_nat code
            = Some (astype_str cell).
Proof.
  intros Hj. unfold astype_category. simpl.
  rewrite !list_lookup_fmap, Hj. simpl. eexists. split; [done|].
  apply index_of_in. unfold sorted_str. rewrite merge_sort_Permutation.
  apply elem_of_remove_dups, list_elem_of_fmap. exists cell. split; [done|].
  by eapply list_elem_of_lookup_2.
Qed.

(** A column recoded against [new]: a sample whose value is among [new]
    has a 1 in the row of its value and 0 in every other row. *)
Lemma encode_recoded (new : list string) (col : list Cell) (j : nat)
    (cell : Cell) b :
  NoDup new → col !! j = Some cell → astype_str cell ∈ new →
  _encode (set_categories new (astype_category astype_str col)) = Ok b →
  b.1 = new
  ∧ ∀ i cat, new !! i = Some cat →
      b.2 !! i ≫= (λ row, row !! j)
      = Some (if decide (cat = astype_str cell) then 1 else 0).
Proof.
  intros Hnd Hj Hin Henc.
  destruct (encode_inv _ _ Henc) as [Hb1 _]. simpl in Hb1. split; [done|].
  destruct (astype_category_code col j cell Hj) as (code & Hcode & Hpos & Hcat).
  destruct (index_of_in _ _ Hin) as [Hpos' Hnew].
  assert (codes (set_categories new (astype_category astype_str col)) !! j
          = Some (index_of (astype_str cell) new)) as Hcode'.
  { unfold set_categories. cbn [codes].
    rewrite list_lookup_fmap, Hcode. cbn [fmap option_fmap option_map].
    destruct (Z.ltb_spec code 0) as [?|_]; [lia|]. by rewrite Hcat. }
  intros i cat Hi.
  rewrite (encode_column _ j _ b Hcode' Hpos' Henc i)
    by (simpl; by eapply lookup_lt_Some).
  f_equal. unfold eye.
  destruct (decide (i = Z.to_nat (index_of (astype_str cell) new))) as [->|Hne].
  - rewrite Hnew in Hi. injection Hi as <-. by rewrite decide_True.
  - rewrite decide_False; [done|]. intros ->. apply Hne.
    by eapply NoDup_lookup.
Qed.

(** X10. For a table that has columns, an allowlist that names
    covariates absent from the table makes [design_matrix_from] raise
    [ValueError] with a message that lists all absent names, in the order
    of the allowlist, separated by a comma and a space. *)
Theorem design_matrix_from_missing_covariates (design : table Cell)
    (covariates : list (string * gset string)) :
  columns design ≠ ∅ →
  filter (λ x, columns design !! x = None) covariates.*1 ≠ [] →
  design_matrix_from astype_str design (Some covariates)
  = Raise (ValueError
             (String.append
                "the following covariates are missing from the design: "
                (String.concat ", "
                   (filter (λ x, columns design !! x = None) covariates.*1)))).
Proof.
  intros Hcols Hmissing. unfold design_matrix_from.
  rewrite decide_False by done.
  assert (filter (λ x, (astype_category astype_str <$> columns design) !! x = None)
            covariates.*1
          = filter (λ x, columns design !! x = None) covariates.*1) as ->.
  { apply list_filter_iff. intros x. rewrite lookup_fmap.
    by destruct (columns design !! x). }
  by rewrite decide_False.
Qed.

(** X11. An allowlist that gives one covariate of the table the empty
    set makes [design_matrix_from] return a frame without rows and with
    one column per sample, whatever the samples hold: nothing is
    raised. *)
Theorem design_matrix_from_empty_set (design : table Cell) (c : string)
    (col : list Cell) :
  columns design !! c = Some col →
  design_matrix_from astype_str design (Some [(c, ∅)])
  = Ok {| index := []; ncols := length col; data := [] |}.
Proof.
  intros Hcol. rewrite design_matrix_from_allowlist_blocks.
  - cbn [map_result fst snd]. rewrite elements_empty.
    rewrite encode_no_categories; [|reflexivity].
    unfold pd_concat. simpl. rewrite (lookup_total_correct _ _ _ Hcol).
    by rewrite Nat.max_0_r.
  - apply NoDup_singleton.
  - intros cv ->%list_elem_of_singleton. by exists col.
  - done.
Qed.


(** What the default branch hands to [_encode]. *)
Lemma design_matrix_from_default_blocks (design : table Cell) :
  columns design ≠ ∅ →
  design_matrix_from astype_str design None
  = blocks ←
      map_result
        (λ c, f ← _encode
                    (set_categories
                       (sorted_str
                          (categories (astype_category astype_str
                                         (columns design !!! c))))
                       (astype_category astype_str (columns design !!! c)));
              Ok (c, f))
        (sorted_str (map_to_list (columns design)).*1);
    match blocks with
    | [] => Raise (ValueError "not enough values to unpack (expected 2, got 0)")
    | _ =>
        Ok (pd_concat
              ((λ c, length (columns design !!! c))
                 <$> sorted_str (map_to_list (columns design)).*1)
              blocks)
    end.
Proof.
  intros Hcols. unfold design_matrix_from. rewrite decide_False by done.
  assert ((map_to_list (astype_category astype_str <$> columns design)).*1
          = (map_to_list (columns design)).*1) as ->.
  { rewrite map_to_list_fmap, <- list_fmap_compose. done. }
  unfold select.
  rewrite (map_result_Ok _
             (λ c, (c, set_categories
                         (sorted_str
                            (categories (astype_category astype_str
                                           (columns design !!! c))))
                         (astype_category astype_str (columns design !!! c))))).
  2:{ intros c Hc. unfold sorted_str in Hc.
      rewrite merge_sort_Permutation in Hc.
      apply list_elem_of_fmap in Hc as ([c' col] & -> & Hc).
      apply elem_of_map_to_list in Hc. simpl.
      rewrite !lookup_fmap, Hc. simpl.
      by rewrite (lookup_total_correct _ _ _ Hc). }
  simpl. rewrite map_result_fmap, <- list_fmap_compose.
  erewrite (list_fmap_ext _ (λ c, length (columns design !!! c)));
    [done|].
  intros i c _. simpl. by rewrite !length_fmap.
Qed.

Lemma astype_category_recode_is_Ok (col : list Cell) :
  is_Ok (_encode
           (set_categories
              (sorted_str (categories (astype_category astype_str col)))
              (astype_category astype_str col))) = true.
Proof. apply encode_is_Ok. Qed.

(** X13. Without an allowlist, [design_matrix_from] succeeds on every
    table that has columns; the block of each column is labelled by the
    distinct values of the column, as strings and sorted, and the column
    of each sample holds 1 in the row of its value and 0 elsewhere. *)
Theorem design_matrix_from_default_one_hot (design : table Cell) :
  columns design ≠ ∅ →
  ∃ f, design_matrix_from astype_str design None = Ok f
       ∧ ∀ c col, columns design !! c = Some col →
           Sorted str_le (rows_of c f).*1
           ∧ (rows_of c f).*1 ≡ₚ remove_dups (astype_str <$> col)
           ∧ ∀ j cell i cat row,
               col !! j = Some cell → rows_of c f !! i = Some (cat, row) →
               row !! j = Some (if decide (cat = astype_str cell) then 1 else 0).
Proof.
  intros Hcols. rewrite design_matrix_from_default_blocks by done.
  set (names := sorted_str (map_to_list (columns design)).*1).
  destruct (map_result _ names) as [blocks|e] eqn:Hblocks.
  2:{ exfalso. revert Hblocks.
      match goal with
      | |- ?t = _ → _ => assert (is_Ok t = true) as Hok
      end.
      { apply map_result_is_Ok. intros c _.
        pose proof (astype_category_recode_is_Ok (columns design !!! c)) as Hc.
        by destruct (_encode _). }
      intros Hblocks. by rewrite Hblocks in Hok. }
  apply map_result_inv in Hblocks. simpl.
  assert (blocks.*1 = names) as Hkeys.
  { clear -Hblocks. induction Hblocks as [|c b cs bs Hb _ IH]; [done|].
    csimpl. rewrite IH. f_equal.
    destruct (_encode _); simpl in Hb; [|discriminate]. by injection Hb as <-. }
  assert (NoDup names) as Hnd.
  { unfold names, sorted_str. rewrite merge_sort_Permutation.
    apply NoDup_fst_map_to_list. }
  assert (∀ b', b' ∈ blocks → length b'.2.2 = length b'.2.1) as Hlen.
  { intros b' Hb'. apply list_elem_of_lookup in Hb' as [n Hn].
    destruct (Forall2_lookup_r _ _ _ _ _ Hblocks Hn) as (c' & _ & Hc').
    destruct (_encode _) as [fr|e] eqn:Henc; simpl in Hc'; [|discriminate].
    injection Hc' as <-. simpl. by apply encode_inv in Henc as [_ ?]. }
  assert (blocks ≠ []) as Hne.
  { intros ->. apply Forall2_nil_inv_r in Hblocks.
    apply (f_equal length) in Hblocks. unfold names in Hblocks.
    rewrite sorted_str_length, length_fmap in Hblocks. simpl in Hblocks.
    apply length_zero_iff_nil, map_to_list_empty_iff in Hblocks. done. }
  exists (pd_concat ((λ c, length (columns design !!! c)) <$> names) blocks).
  split; [destruct blocks; [by destruct Hne|done]|].
  intros c col Hcol.
  assert (c ∈ names) as Hc.
  { unfold names, sorted_str. rewrite merge_sort_Permutation.
    apply list_elem_of_fmap. exists (c, col). split; [done|].
    by apply elem_of_map_to_list. }
  apply list_elem_of_lookup in Hc as [n Hn].
  destruct (Forall2_lookup_l _ _ _ _ _ Hblocks Hn) as (b & Hb & Hbenc).
  simpl in Hbenc.
  destruct (_encode _) as [fr|e] eqn:Henc; simpl in Hbenc; [|discriminate].
  injection Hbenc as <-.
  pose proof (rows_of_concat ((λ c, length (columns design !!! c)) <$> names)
                blocks (c, fr) Hlen) as Hr.
  cbn [fst snd] in Hr. rewrite Hr;
    [|by rewrite Hkeys|by eapply list_elem_of_lookup_2].
  rewrite (lookup_total_correct _ _ _ Hcol) in Henc.
  destruct (encode_inv _ _ Henc) as [Hfr1 Hfr2]. cbn [categories set_categories] in Hfr1.
  rewrite fst_zip by lia. rewrite Hfr1. split; [apply sorted_str_Sorted|].
  split.
  { unfold astype_category. cbn [categories].
    by rewrite !sorted_str_Permutation. }
  intros j cell i cat row Hj Hrow.
  apply lookup_zip_with_Some in Hrow as (cat' & row' & Heq & Hcat & Hrow').
  injection Heq as -> ->.
  destruct (encode_recoded
              (sorted_str (categories (astype_category astype_str col)))
              col j cell fr) as [_ Hone]; [|done| |done|].
  - unfold astype_category. cbn [categories].
    rewrite !sorted_str_Permutation. apply NoDup_remove_dups.
  - unfold astype_category. cbn [categories].
    rewrite !sorted_str_Permutation. apply elem_of_remove_dups.
    apply list_elem_of_fmap. exists cell. split; [done|].
    by eapply list_elem_of_lookup_2.
  - cbn [fst snd] in Hcat, Hrow'. unfold astype_category in Hone.
    cbn [categories] in Hone. specialize (Hone i cat' Hcat).
    by rewrite Hrow' in Hone.
Qed.
End DesignMatrixMore.

(** ** [Slide], continued *)

Lemma map_result_raises_only {A B} (f : A → result B) (e : exn) (l : list A) :
  (∀ x e', x ∈ l → f x = Raise e' → e' = e) →
  (∃ x, x ∈ l ∧ is_Ok (f x) = false) →
  map_result f l = Raise e.
Proof.
  induction l as [|x l IH]; intros Hall (y & Hy & Hfail).
  - by apply elem_of_nil in Hy.
  - simpl. destruct (f x) as [b|e'] eqn:Hx; simpl.
    + apply elem_of_cons in Hy as [->|Hy]; [by rewrite Hx in Hfail|].
      rewrite IH; [done| |by exists y].
      intros z e'' Hz. apply Hall. by right.
    + f_equal. by apply (Hall x); [left|].
Qed.

Lemma concat_map_map {A B} (f : A → B) (g : list (list A)) :
  concat (map (map f) g) = f <$> concat g.
Proof.
  induction g as [|row g IH]; [done|]. simpl. by rewrite IH, fmap_app.
Qed.

Lemma grid_lookup_map_map {A B} (f : A → B) (g : list (list A)) (i j : nat) :
  map (map f) g !! i ≫= (λ row, row !! j)
  = f <$> (g !! i ≫= (λ row, row !! j)).
Proof.
  change (map (map f) g) with (map f <$> g). rewrite list_lookup_fmap.
  destruct (g !! i) as [row|]; [|done]. simpl.
  change (map f row) with (f <$> row). by rewrite list_lookup_fmap.
Qed.

Lemma elem_of_concat {A} (x : A) (g : list (list A)) :
  x ∈ concat g ↔ ∃ row, x ∈ row ∧ row ∈ g.
Proof.
  induction g as [|row g IH]; simpl.
  - split; [by intros ?%elem_of_nil|intros (? & _ & ?%elem_of_nil); done].
  - rewrite elem_of_app, IH. split.
    + intros [Hx|(row' & Hx & Hrow')]; [exists row|exists row'];
        (split; [done|]); [left|by right].
    + intros (row' & Hx & [->|Hrow']%elem_of_cons); [by left|right; eauto].
Qed.

Lemma grid_lookup_elem_of {A} (g : list (list A)) (i j : nat) (x : A) :
  g !! i ≫= (λ row, row !! j) = Some x → x ∈ concat g.
Proof.
  destruct (g !! i) as [row|] eqn:Hi; [|done]. simpl. intros Hj.
  apply elem_of_concat. exists row. split.
  - by eapply list_elem_of_lookup_2.
  - by eapply list_elem_of_lookup_2.
Qed.

(** X14. [_zero_data] holds the background id 0 and, for every row of
    the count matrix that sums to zero, the label id of that row (its
    position plus one), and nothing else. *)
Theorem zero_data_spec {Image} (self : Slide.t Image) (x : Z) :
  x ∈ Slide._zero_data self
  ↔ x = 0 ∨ ∃ (i : nat) row, Slide._data self !! i = Some row
                             ∧ Slide.row_sum row = 0 ∧ x = Z.of_nat i + 1.
Proof.
  unfold Slide._zero_data. rewrite elem_of_cons, list_elem_of_omap.
  split; (intros [->|H]; [by left|right]).
  - destruct H as (o & Ho & Hx). simpl in Hx. subst o.
    apply elem_of_lookup_imap in Ho as (i & row & Hx & Hrow).
    case_decide; [|discriminate]. injection Hx as ->. eauto.
  - destruct H as (i & row & Hrow & Hsum & ->).
    exists (Some (Z.of_nat i + 1)). split; [|done].
    apply elem_of_lookup_imap. exists i, row. split; [|done].
    by rewrite decide_True.
Qed.

Section SlideMore.
Context {Image ImageTensor : Type}.
Variable binary_fill_holes : list (list bool) → list (list bool).
Variable normalize : Image → ImageTensor.

#[local] Abbreviation patch_at := (Slide.patch_at binary_fill_holes normalize).
#[local] Abbreviation getitem := (Slide.__getitem__ binary_fill_holes normalize).
#[local] Abbreviation surviving_ids := (Slide.surviving_ids binary_fill_holes).
#[local] Abbreviation visible :=
  (Slide.remove_partially_visible binary_fill_holes).

(** X15. The label grid of a returned patch is dense: its values are
    exactly the integers from 0 up to some bound. *)
Theorem patch_labels_dense (self : Slide.t Image) (idx : Z)
    (p : Slide.patch ImageTensor) :
  patch_at self idx = Ok (Some p) →
  ∃ m : nat, ∀ r, r ∈ concat (Slide.label p) ↔ 0 ≤ r < Z.of_nat m.
Proof.
  unfold Slide.patch_at.
  destruct (Slide._get_patch self idx) as [il|e]; simpl; [|discriminate].
  set (lab := Slide.remove_partially_visible _ _ _).
  destruct (Slide.take_rows self _) as [rows|e]; simpl; [|discriminate].
  case_decide; [discriminate|]. intros [= <-]. simpl.
  exists (length (Slide.unique_labels lab)). intros r.
  rewrite concat_map_map, list_elem_of_fmap. split.
  - intros (x & -> & Hx). apply elem_of_unique_labels in Hx.
    apply list_elem_of_lookup in Hx as [i Hi].
    rewrite (searchsorted_position _ _ _ Hi).
    apply lookup_lt_Some in Hi. lia.
  - intros Hr.
    destruct (lookup_lt_is_Some_2 (Slide.unique_labels lab) (Z.to_nat r))
      as [x Hx]; [lia|].
    exists x. split.
    + rewrite (searchsorted_position _ _ _ Hx). lia.
    + apply elem_of_unique_labels. by eapply list_elem_of_lookup_2.
Qed.

(** X16. When the crop, after the partially visible labels are removed,
    holds the background id 0 and no negative id, label and counts of
    the patch are aligned: a pixel with id [x > 0] gets a rank [k + 1]
    such that row [k] of the patch's counts is row [x - 1] of the
    slide's count matrix. *)
Theorem patch_rows_aligned (self : Slide.t Image) (idx : Z)
    (il : Image * list (list Z)) (p : Slide.patch ImageTensor) :
  Slide._get_patch self idx = Ok il →
  (∀ y, y ∈ concat (visible (Slide._zero_data self) il.2) → 0 ≤ y) →
  0 ∈ concat (visible (Slide._zero_data self) il.2) →
  patch_at self idx = Ok (Some p) →
  ∀ i j x,
    visible (Slide._zero_data self) il.2 !! i ≫= (λ row, row !! j) = Some x →
    0 < x →
    ∃ k : nat,
      Slide.label p !! i ≫= (λ row, row !! j) = Some (Z.of_nat k + 1)
      ∧ Slide.data p !! k = Slide._data self !! Z.to_nat (x - 1)
      ∧ is_Some (Slide.data p !! k).
Proof.
  intros Hil Hnonneg Hzero. unfold Slide.patch_at. rewrite Hil. simpl.
  set (lab := Slide.remove_partially_visible _ _ _) in *.
  destruct (Slide.take_rows self _) as [rows|e] eqn:Hrows; simpl; [|discriminate].
  case_decide; [discriminate|]. intros [= <-] i j x Hx Hpos. simpl.
  assert (x ∈ filter (λ y, 0 < y) (Slide.unique_labels lab)) as Hin.
  { apply list_elem_of_filter. split; [done|].
    apply elem_of_unique_labels. by eapply grid_lookup_elem_of. }
  apply list_elem_of_lookup in Hin as [k Hk]. exists k.
  rewrite grid_lookup_map_map, Hx. simpl.
  rewrite (searchsorted_rank lab k x Hnonneg Hk), decide_True by done.
  split; [done|].
  unfold Slide.take_rows in Hrows. apply map_result_inv in Hrows.
  assert (((λ y, y - 1) <$> filter (λ y, 0 < y) (Slide.unique_labels lab)) !! k
          = Some (x - 1)) as Hk' by (by rewrite list_lookup_fmap, Hk).
  destruct (Forall2_lookup_l _ _ _ _ _ Hrows Hk') as (row & Hrow & Hdata).
  rewrite Hrow.
  destruct (Slide._data self !! Z.to_nat (x - 1)); [|discriminate].
  injection Hdata as ->. eauto.
Qed.

(** X17. On a data set of length 0, [__getitem__] raises
    [ZeroDivisionError] as soon as a crop keeps no non-zero id. *)
Theorem getitem_empty_dataset (self : Slide.t Image) (idx : Z) (fuel : nat) :
  Slide.__len__ self = 0%nat → surviving_ids self idx = Ok [] →
  getitem (S fuel) self idx = Some (Raise ZeroDivisionError).
Proof.
  intros Hlen Hids. simpl.
  rewrite (patch_at_none_surviving _ _ _ _ Hids). by rewrite decide_True.
Qed.

(** X18. A surviving label id that is larger than the number of rows of
    the count matrix makes [__getitem__] raise [IndexError]. *)
Theorem getitem_id_without_row (self : Slide.t Image) (idx : Z)
    (ids : list Z) (x : Z) (fuel : nat) :
  surviving_ids self idx = Ok ids → x ∈ ids →
  Z.of_nat (length (Slide._data self)) < x →
  getitem (S fuel) self idx = Some (Raise IndexError).
Proof.
  unfold Slide.surviving_ids. simpl. unfold Slide.patch_at.
  destruct (Slide._get_patch self idx) as [il|e]; simpl; [|discriminate].
  intros [= <-] Hx Hlarge.
  unfold Slide.take_rows.
  rewrite (map_result_raises_only _ IndexError); [done| |].
  - intros r e' _ Hr. destruct (Slide._data self !! Z.to_nat r); [discriminate|].
    by injection Hr as <-.
  - exists (x - 1). split; [apply list_elem_of_fmap; eauto|].
    rewrite lookup_ge_None_2; [done|]. lia.
Qed.

(** More recursion depth does not change what a call returns. *)
Lemma getitem_fuel_mono (self : Slide.t Image) (fuel : nat) :
  ∀ idx r fuel', getitem fuel self idx = Some r → (fuel ≤ fuel')%nat →
                  getitem fuel' self idx = Some r.
Proof.
  induction fuel as [|fuel IH]; intros idx r fuel' Hr Hle; [discriminate|].
  destruct fuel' as [|fuel']; [lia|]. simpl in *.
  destruct (patch_at self idx) as [[p|]|e]; try done.
  case_decide; [done|]. apply IH; [done|lia].
Qed.
End SlideMore.

(** ** [restore_state], continued *)

Section LoadOptimizersMore.
Context {Optimizer OptimizerState : Type}.
Variable optimizer_load_state_dict :
  Optimizer → OptimizerState → Optimizer * option exn.

Lemma load_optimizers_length (optimizers : list Optimizer) :
  ∀ ss : list OptimizerState,
    length (load_optimizers optimizer_load_state_dict optimizers ss).1
    = length optimizers.
Proof.
  induction optimizers as [|o os IH]; intros ss; [done|].
  destruct ss as [|s ss]; [done|]. simpl.
  destruct (optimizer_load_state_dict o s) as [o' [e|]]; [done|].
  specialize (IH ss).
  destruct (load_optimizers optimizer_load_state_dict os ss) as [rest e'].
  simpl in *. by rewrite IH.
Qed.
End LoadOptimizersMore.

Section CheckpointMore.
Context {Model ModelState Optimizer OptimizerState : Type}.
Variable model_load_state_dict : Model → ModelState → Model * option exn.
Variable optimizer_load_state_dict :
  Optimizer → OptimizerState → Optimizer * option exn.
Variable model_load_other :
  Model → ckpt_value ModelState OptimizerState → Model * option exn.
Variable state_keys : ModelState → list string.
Variable optimizer_load_key : Optimizer → string → Optimizer * option exn.

(** X19. On every path, also when it raises, [restore_state] leaves
    the number of optimizers unchanged and does not touch the optimizers
    beyond the stored optimizer states. *)
Theorem restore_state_optimizers_kept (model : Model)
    (optimizers : list Optimizer) (f : string)
    (fs : gmap string (gmap string (ckpt_value ModelState OptimizerState))) :
  let out :=
    restore_state model_load_state_dict optimizer_load_state_dict
      model_load_other state_keys optimizer_load_key
      model optimizers f fs in
  length out.1.2 = length optimizers
  ∧ ∀ state ss i,
      fs !! f = Some state →
      state !! "optimizers" = Some (VOptimizerStates ss) →
      (length ss ≤ i)%nat →
      out.1.2 !! i = optimizers !! i.
Proof.
  unfold restore_state, torch_load.
  destruct (fs !! f) as [state|] eqn:Hf; [|by split].
  destruct (state !! "vae") as [vae|]; [|by split].
  destruct (load_model _ _ _ vae) as [model' [e|]]; [by split|].
  destruct (state !! "optimizers") as [v|] eqn:Hopt; [|by split].
  assert (length (load_zipped optimizer_load_state_dict state_keys
                    optimizer_load_key optimizers v).1 = length optimizers
          ∧ ∀ ss i, v = VOptimizerStates ss → (length ss ≤ i)%nat →
              (load_zipped optimizer_load_state_dict state_keys
                 optimizer_load_key optimizers v).1 !! i = optimizers !! i)
    as [Hlen Hbeyond].
  { destruct v as [s|ss|n]; simpl.
    - split; [apply load_optimizers_length|done].
    - split; [apply load_optimizers_length|].
      intros ss' i [= <-]. apply load_optimizers_beyond.
    - by split. }
  destruct (load_zipped _ _ _ optimizers v) as [optimizers' [e|]].
  - split; [done|]. intros state' ss' i [= <-]. rewrite Hopt.
    intros [= ->]. by apply Hbeyond.
  - destruct (state !! "iteration");
      (split; [done|]); intros state' ss' i [= <-]; rewrite Hopt;
      intros [= ->]; by apply Hbeyond.
Qed.

(** X20. [restore_state] is not all-or-nothing: from a record that
    lacks ['iteration'] it raises [KeyError('iteration')] only after the
    model and the paired optimizers have been loaded. *)
Theorem restore_state_missing_iteration (model model' : Model)
    (optimizers optimizers' : list Optimizer) (f : string)
    (fs : gmap string (gmap string (ckpt_value ModelState OptimizerState)))
    (state : gmap string (ckpt_value ModelState OptimizerState))
    (s : ModelState) (ss : list OptimizerState) :
  fs !! f = Some state →
  state !! "vae" = Some (VModelState s) →
  state !! "optimizers" = Some (VOptimizerStates ss) →
  state !! "iteration" = None →
  model_load_state_dict model s = (model', None) →
  load_optimizers optimizer_load_state_dict optimizers ss
  = (optimizers', None) →
  restore_state model_load_state_dict optimizer_load_state_dict
    model_load_other state_keys optimizer_load_key
    model optimizers f fs
  = ((model', optimizers'), Raise (KeyError "iteration")).
Proof.
  intros Hf Hvae Hopt Hit Hm Ho.
  unfold restore_state, torch_load, load_model, load_zipped.
  by rewrite Hf, Hvae, Hm, Hopt, Ho, Hit.
Qed.
End CheckpointMore.


(** ** [center_crop] *)

Lemma slice_list_in_range {A} (lo hi : Z) (l : list A) :
  0 ≤ lo ≤ hi → hi ≤ Z.of_nat (length l) →
  slice_list (Slice lo hi) l = take (Z.to_nat (hi - lo)) (drop (Z.to_nat lo) l).
Proof.
  intros Hlo Hhi. unfold slice_list, slice_bound.
  destruct (Z.ltb_spec lo 0), (Z.ltb_spec hi 0); try lia.
  by rewrite !Z.min_l by lia.
Qed.

Lemma center_slice_in_range {A} (b : Z) (l : list A) :
  0 ≤ b ≤ Z.of_nat (length l) →
  slice_list (center_slice (length l) (Some b)) l
  = take (Z.to_nat b)
      (drop (Z.to_nat ((Z.of_nat (length l) - b) `div` 2)) l)
  ∧ (Z.to_nat ((Z.of_nat (length l) - b) `div` 2) + Z.to_nat b
     ≤ length l)%nat.
Proof.
  intros Hb. set (d := Z.of_nat (length l) - b).
  assert (0 ≤ d `div` 2 ∧ d `div` 2 ≤ d) as [H1 H2].
  { split; [apply Z.div_pos; lia|]. apply Z.div_le_upper_bound; lia. }
  unfold center_slice. fold d. rewrite slice_list_in_range by lia.
  split; [f_equal; f_equal; lia|lia].
Qed.

Lemma has_shape_Array (n : nat) (s : list nat) (items : list ndarray) :
  has_shape (n :: s) (Array items) = true
  ↔ length items = n ∧ Forall (λ x, has_shape s x = true) items.
Proof.
  simpl. rewrite andb_true_iff, bool_decide_eq_true.
  assert (forallb (has_shape s) items = true
          ↔ Forall (λ x, has_shape s x = true) items) as ->; [|done].
  induction items as [|x items IH]; simpl.
  - split; [constructor|done].
  - rewrite andb_true_iff, IH, Forall_cons. done.
Qed.

Lemma getitem_center_slices (target_shape : list (option Z)) :
  ∀ (s : list nat) (a : ndarray),
    has_shape s a = true → fits s target_shape →
    has_shape (cropped_shape s target_shape)
      (getitem_slices (zip_with center_slice s target_shape) a) = true
    ∧ ∀ idx, inside idx target_shape →
        nd_get idx (getitem_slices (zip_with center_slice s target_shape) a)
        = nd_get (shift_index idx (crop_offsets s target_shape)) a.
Proof.
  induction target_shape as [|t target_shape IH]; intros s a Hshape [Hlen Hfit].
  - destruct s; simpl; (split; [done|]); by intros [|??] ?.
  - destruct s as [|n s]; [simpl in Hlen; lia|].
    destruct a as [x|items]; [done|].
    apply has_shape_Array in Hshape as [Hn Hitems].
    assert (fits s target_shape) as Hfits'.
    { split; [simpl in Hlen; lia|]. intros k a b Ha Hb. by apply (Hfit (S k)). }
    assert (∀ x, x ∈ items →
              has_shape (cropped_shape s target_shape)
                (getitem_slices (zip_with center_slice s target_shape) x) = true
              ∧ ∀ idx, inside idx target_shape →
                  nd_get idx
                    (getitem_slices (zip_with center_slice s target_shape) x)
                  = nd_get (shift_index idx (crop_offsets s target_shape)) x)
      as Hsub.
    { intros x Hx. apply IH; [|done]. rewrite Forall_forall in Hitems. auto. }
    destruct t as [b|].
    + pose proof (Hfit 0%nat n b eq_refl eq_refl) as Hb. subst n.
      destruct (center_slice_in_range b items Hb) as [Hslice Hoff].
      cbn [zip_with getitem_slices cropped_shape crop_offsets].
      rewrite Hslice. split.
      * apply has_shape_Array. split.
        { rewrite length_map, length_take, length_drop. lia. }
        apply Forall_forall. intros y Hy.
        apply list_elem_of_fmap in Hy as (x & -> & Hx). apply Hsub.
        by apply subseteq_take, subseteq_drop in Hx.
      * intros [|i idx] [Hlen' Hin]; [simpl in Hlen'; lia|].
        pose proof (Hin 0%nat i b eq_refl eq_refl) as Hi.
        cbn [shift_index nd_get].
        change (map ?f ?l) with (f <$> l).
        rewrite list_lookup_fmap, lookup_take_lt, lookup_drop by lia.
        rewrite (Nat.add_comm i).
        destruct (items !! _) as [x|] eqn:Hx; [|done]. simpl.
        apply Hsub; [by eapply list_elem_of_lookup_2|].
        split; [simpl in Hlen'; lia|]. intros k i' b' ? ?. by apply (Hin (S k)).
    + cbn [zip_with getitem_slices cropped_shape crop_offsets center_slice
             slice_list].
      split.
      * apply has_shape_Array. split; [by rewrite length_map|].
        apply Forall_forall. intros y Hy.
        apply list_elem_of_fmap in Hy as (x & -> & Hx). by apply Hsub.
      * intros [|i idx] [Hlen' Hin]; [simpl in Hlen'; lia|].
        cbn [shift_index nd_get]. rewrite Nat.add_0_r.
        change (map ?f ?l) with (f <$> l). rewrite list_lookup_fmap.
        destruct (items !! i) as [x|] eqn:Hx; [|done]. simpl.
        apply Hsub; [by eapply list_elem_of_lookup_2|].
        split; [simpl in Hlen'; lia|]. intros k i' b' ? ?. by apply (Hin (S k)).
Qed.

(** X21. For a rectangular array and a target that names no more axes
    than the array has and no extent above the array's, [center_crop]
    returns an array with the target's extents (the array's own where the
    target has [None]) whose element at an index is the array's element
    at that index moved by [(a - b) // 2] on every cropped axis. *)
Theorem center_crop_elements (input : ndarray)
    (target_shape : list (option Z)) :
  has_shape (shape input) input = true →
  fits (shape input) target_shape →
  has_shape (cropped_shape (shape input) target_shape)
    (center_crop input target_shape) = true
  ∧ ∀ idx, inside idx target_shape →
      nd_get idx (center_crop input target_shape)
      = nd_get (shift_index idx (crop_offsets (shape input) target_shape))
          input.
Proof. apply getitem_center_slices. Qed.

Lemma getitem_own_shape (s : list nat) :
  ∀ a, has_shape s a = true →
       getitem_slices
         (zip_with center_slice s ((λ n, Some (Z.of_nat n)) <$> s)) a = a.
Proof.
  induction s as [|n s IH]; intros a Hshape; [done|].
  destruct a as [x|items]; [done|].
  apply has_shape_Array in Hshape as [<- Hitems].
  cbn [fmap list_fmap zip_with getitem_slices].
  destruct (center_slice_in_range (Z.of_nat (length items)) items) as [-> _];
    [lia|].
  rewrite Z.sub_diag, Nat2Z.id. change (0 `div` 2) with 0. simpl.
  rewrite take_ge by done. f_equal.
  induction Hitems as [|x items Hx _ IHitems]; [done|].
  simpl. f_equal; [by apply IH|apply IHitems].
Qed.

(** X22. Cropping a rectangular array to its own shape returns the
    array unchanged. *)
Theorem center_crop_own_shape (input : ndarray) :
  has_shape (shape input) input = true →
  center_crop input ((λ n, Some (Z.of_nat n)) <$> shape input) = input.
Proof. apply getitem_own_shape. Qed.

(** X23. A target extent [b] above the extent [a] of the first axis
    raises nothing: the negative start index wraps around, and the
    result keeps the last [min(a, ceil((b - a) / 2))] items of the axis
    only. *)
Theorem center_crop_larger_target (items : list ndarray) (b : Z) :
  Z.of_nat (length items) < b →
  center_crop (Array items) [Some b]
  = Array (drop (Z.to_nat
                   (Z.max 0 (Z.of_nat (length items)
                             - (b - Z.of_nat (length items) + 1) `div` 2)))
             items).
Proof.
  intros Hb. unfold center_crop. cbn [shape zip_with getitem_slices].
  rewrite zip_with_nil_r. cbn [getitem_slices].
  set (a := Z.of_nat (length items)) in *.
  assert ((a - b) `div` 2 = - ((b - a + 1) `div` 2)) as Hdiv.
  { pose proof (Z.div_mod (a - b) 2 ltac:(lia)).
    pose proof (Z.mod_pos_bound (a - b) 2 ltac:(lia)).
    pose proof (Z.div_mod (b - a + 1) 2 ltac:(lia)).
    pose proof (Z.mod_pos_bound (b - a + 1) 2 ltac:(lia)). lia. }
  assert (0 < (b - a + 1) `div` 2 ≤ b - a) as Hc.
  { pose proof (Z.div_mod (b - a + 1) 2 ltac:(lia)).
    pose proof (Z.mod_pos_bound (b - a + 1) 2 ltac:(lia)). lia. }
  unfold center_slice, slice_list, slice_bound. fold a. rewrite Hdiv.
  destruct (Z.ltb_spec (- ((b - a + 1) `div` 2)) 0); [|lia].
  destruct (Z.ltb_spec (- ((b - a + 1) `div` 2) + b) 0); [lia|].
  rewrite (Z.min_r _ a) by lia.
  replace (- ((b - a + 1) `div` 2) + a) with (a - (b - a + 1) `div` 2) by lia.
  rewrite take_ge by (rewrite length_drop; lia).
  f_equal. apply map_id.
Qed.

(** ** [chunks_of] *)

Section ChunksOfFacts.
Context {A : Type}.
Implicit Types (it xs : list A).

Lemma zip_longest_round_full (k : nat) : ∀ it m,
  (k ≤ length it)%nat →
  zip_longest_round (replicate k true) it m
  = Some (Some <$> take k it, replicate k true, drop k it, m).
Proof.
  induction k as [|k IH]; intros it m Hk; [done|].
  destruct it as [|x it]; [simpl in Hk; lia|].
  cbn [replicate zip_longest_round]. rewrite IH by (simpl in Hk; lia). done.
Qed.

Lemma zip_longest_round_partial (k : nat) : ∀ it m,
  (length it ≤ k)%nat → (k - length it < m)%nat →
  zip_longest_round (replicate k true) it m
  = Some ((Some <$> it) ++ replicate (k - length it) None,
          replicate (length it) true ++ replicate (k - length it) false,
          [], (m - (k - length it))%nat).
Proof.
  induction k as [|k IH]; intros it m Hk Hm.
  - destruct it; [|simpl in Hk; lia]. simpl. by rewrite Nat.sub_0_r.
  - destruct it as [|x it]; cbn [replicate zip_longest_round].
    + rewrite decide_False by (simpl in Hm; lia).
      rewrite IH by (simpl in *; lia). simpl.
      replace (Nat.pred m - (k - 0))%nat with (m - S k)%nat by lia.
      by rewrite Nat.sub_0_r.
    + rewrite IH by (simpl in *; lia). done.
Qed.

Lemma zip_longest_round_stop (j : nat) (rest : list bool) : ∀ m,
  (0 < m ≤ j)%nat →
  zip_longest_round (A:=A) (replicate j true ++ rest) [] m = None.
Proof.
  induction j as [|j IH]; intros m Hm; [lia|].
  cbn [replicate app zip_longest_round].
  destruct (decide (Nat.pred m = 0%nat)) as [|Hne]; [done|].
  rewrite IH by lia. done.
Qed.

Lemma omap_id_Some xs : omap id (Some <$> xs) = xs.
Proof. induction xs as [|x xs IH]; [done|]. csimpl. by rewrite IH. Qed.

Lemma omap_id_None (k : nat) : omap id (replicate k (@None A)) = [].
Proof. induction k as [|k IH]; [done|]. simpl. exact IH. Qed.

(** The chunks that the rounds produce from a fresh iteration. *)
Lemma zip_longest_rounds_chunks (n : nat) (Hn : (0 < n)%nat) (fuel : nat) :
  ∀ it, (length it < fuel)%nat →
    let r := map (λ tuple : list (option A), omap id tuple)
               (zip_longest_rounds fuel (replicate n true) it n) in
    concat r = it
    ∧ length r = ((length it + n - 1) / n)%nat
    ∧ ∀ i c, r !! i = Some c → c = take n (drop (i * n) it) ∧ c ≠ [].
Proof.
  induction fuel as [|fuel IH]; intros it Hfuel; [lia|].
  cbn [zip_longest_rounds].
  rewrite decide_False
    by (intros [Hnil%(f_equal length)|?]; [rewrite length_replicate in Hnil|];
        simpl in *; lia).
  destruct (decide (n ≤ length it)%nat) as [Hfull|Hpart].
  - rewrite zip_longest_round_full by done.
    assert (length (drop n it) < fuel)%nat as Hdrop
        by (rewrite length_drop; lia).
    destruct (IH (drop n it) Hdrop) as (Hcat & Hlen & Hget).
    cbn [map]. rewrite omap_id_Some. split; [|split].
    + cbn [concat]. rewrite Hcat. apply take_drop.
    + cbn [length]. rewrite Hlen, length_drop.
      replace (length it + n - 1)%nat with (length it - n + n - 1 + 1 * n)%nat
        by lia.
      rewrite Nat.div_add by lia. lia.
    + intros [|i] c Hc.
      * injection Hc as <-. split; [done|].
        destruct it; [simpl in Hfull; lia|]. destruct n; [lia|done].
      * destruct (Hget i c Hc) as [-> Hne]. split; [|done].
        by rewrite drop_drop.
  - destruct it as [|x it].
    + pose proof (zip_longest_round_stop n [] n ltac:(lia)) as Hstop.
      rewrite app_nil_r in Hstop. rewrite Hstop.
      cbn [map concat length]. split; [done|]. split; [|by intros [|?] ?].
      symmetry. apply Nat.div_small. clear -Hn. lia.
    + rewrite zip_longest_round_partial by (cbn [length] in *; lia).
      destruct fuel as [|fuel]; [simpl in Hfuel; lia|].
      cbn [zip_longest_rounds].
      rewrite decide_False
        by (intros [Hnil%(f_equal length)|?]; simpl in *; lia).
      rewrite zip_longest_round_stop by (simpl; lia).
      cbn [map]. rewrite omap_app, omap_id_Some, omap_id_None, app_nil_r.
      split; [by rewrite (concat_cons _ []), concat_nil, app_nil_r|].
      split.
      * cbn [length] in *.
        apply Nat.div_unique with (length it)%nat; lia.
      * intros [|i] c Hc; [|done]. injection Hc as <-.
        split; [|done]. simpl. rewrite take_ge; [done|]. simpl in *. lia.
Qed.

(** X24. For [n > 0] the chunks of [chunks_of(n, xs)], concatenated,
    are [xs]; [chunks_of(0, xs)] yields no chunk at all. *)
Theorem chunks_of_concat (n : nat) xs :
  if decide (n = 0%nat) then chunks_of n xs = []
  else concat (chunks_of n xs) = xs.
Proof.
  unfold chunks_of. destruct (decide (n = 0%nat)) as [->|Hn].
  - cbn [replicate zip_longest_rounds]. by rewrite decide_True by (by left).
  - by destruct (zip_longest_rounds_chunks n ltac:(lia) (S (length xs)) xs)
      as [H _]; [lia|].
Qed.

(** X25. For [n > 0], [chunks_of(n, xs)] has [ceil(len(xs) / n)]
    chunks; chunk [i] is [xs[i * n : (i + 1) * n]] and has between 1 and
    [n] elements. *)
Theorem chunks_of_chunks (n : nat) xs :
  (0 < n)%nat →
  length (chunks_of n xs) = ((length xs + n - 1) / n)%nat
  ∧ ∀ i c, chunks_of n xs !! i = Some c →
      c = take n (drop (i * n) xs) ∧ (0 < length c ≤ n)%nat.
Proof.
  intros Hn. unfold chunks_of.
  destruct (zip_longest_rounds_chunks n Hn (S (length xs)) xs)
    as (_ & Hlen & Hget); [lia|].
  split; [done|]. intros i c Hc. destruct (Hget i c Hc) as [-> Hne].
  split; [done|]. split.
  - destruct (take n _); [done|simpl; lia].
  - rewrite length_take. lia.
Qed.

(** More rounds than [length xs + 1] produce no further tuple. *)
Lemma zip_longest_rounds_enough (n : nat) xs (fuel : nat) :
  (0 < n)%nat → (length xs < fuel)%nat →
  length (zip_longest_rounds fuel (replicate n true) xs n)
  = length (chunks_of n xs).
Proof.
  intros Hn Hfuel. unfold chunks_of.
  destruct (zip_longest_rounds_chunks n Hn fuel xs Hfuel) as (_ & H1 & _).
  destruct (zip_longest_rounds_chunks n Hn (S (length xs)) xs) as (_ & H2 & _);
    [lia|].
  rewrite length_map in *. congruence.
Qed.

End ChunksOfFacts.

(** ** The crops of [Histonet.forward] *)

Lemma decoder_extent_eq (n : Z) : decoder_extent n = 16 * (n + 3).
Proof. unfold decoder_extent, conv_transpose2d_extent. lia. Qed.

Lemma decoder_covers (x : Z) : 0 ≤ x → x ≤ decoder_extent (latent_extent x).
Proof.
  intros Hx. rewrite decoder_extent_eq. unfold latent_extent.
  pose proof (Z.div_mod (x + 15) 16 ltac:(lia)).
  pose proof (Z.mod_pos_bound (x + 15) 16 ltac:(lia)). lia.
Qed.

(** X26. The decoder turns a latent extent [m] into [16 * (m + 3)],
    which for [m = ceil(h / 16)] is at least [h]: the crop that [forward]
    takes of a decoded batch has exactly the image's height and width. *)
Theorem forward_crop_shape (decoded : ndarray) (n c : nat) (h w : Z) :
  0 ≤ h → 0 ≤ w →
  shape decoded
  = [n; c; Z.to_nat (decoder_extent (latent_extent h));
     Z.to_nat (decoder_extent (latent_extent w))] →
  has_shape (shape decoded) decoded = true →
  has_shape [n; c; Z.to_nat h; Z.to_nat w]
    (center_crop decoded (forward_shape h w)) = true.
Proof.
  intros Hh Hw Hshape Hrect.
  destruct (center_crop_elements decoded (forward_shape h w) Hrect) as [H _].
  - rewrite Hshape. split; [simpl; lia|].
    pose proof (decoder_covers h Hh). pose proof (decoder_covers w Hw).
    intros [|[|[|[|k]]]] a b Ha Hb; simpl in Ha, Hb; try discriminate;
      injection Ha as <-; injection Hb as <-; lia.
  - by rewrite Hshape in H.
Qed.

(** ** The properties at concrete inputs *)

Lemma collect_items_keeps_scalars_witness :
  collect_items MoreInputs.item
    [("loss", MoreInputs.Elements [3]); ("image", MoreInputs.Elements [1; 2]);
     ("none", MoreInputs.Elements []); ("epoch", MoreInputs.Number 7);
     ("rmse", MoreInputs.Elements [4])]
  = Ok [("loss", 3); ("rmse", 4)].
Proof.
  apply (collect_items_keeps_scalars MoreInputs.item
           [("loss", MoreInputs.Elements [3]);
            ("image", MoreInputs.Elements [1; 2]);
            ("none", MoreInputs.Elements []); ("epoch", MoreInputs.Number 7);
            ("rmse", MoreInputs.Elements [4])]).
  - decide_by_compute.
  - intros kv e Hkv.
    apply elem_of_cons in Hkv as [->|Hkv]; [discriminate|].
    apply elem_of_cons in Hkv as [->|Hkv];
      [intros [= <-]; right; eauto|].
    apply elem_of_cons in Hkv as [->|Hkv];
      [intros [= <-]; right; eauto|].
    apply elem_of_cons in Hkv as [->|Hkv];
      [intros [= <-]; by left|].
    apply list_elem_of_singleton in Hkv as ->. discriminate.
Defined.

Lemma collect_items_propagates_witness :
  collect_items MoreInputs.item
    [("loss", MoreInputs.Elements [3]); ("image", MoreInputs.Broken "device");
     ("rmse", MoreInputs.Elements [4])]
  = Raise (RuntimeError "device").
Proof.
  apply (collect_items_propagates MoreInputs.item
           [("loss", MoreInputs.Elements [3])]
           [("rmse", MoreInputs.Elements [4])]
           "image" (MoreInputs.Broken "device")).
  - decide_by_compute.
  - intros kv e Hkv. apply list_elem_of_singleton in Hkv as ->. discriminate.
  - reflexivity.
  - intros [H|[msg H]]; discriminate.
Defined.

Lemma design_matrix_from_missing_covariates_witness :
  design_matrix_from id Inputs.design
    (Some [("x", ∅); ("c", {[ "a" ]}); ("y", ∅)])
  = Raise (ValueError
             "the following covariates are missing from the design: x, y").
Proof.
  apply (design_matrix_from_missing_covariates id Inputs.design
           [("x", ∅); ("c", {[ "a" ]}); ("y", ∅)]).
  - intros H. apply (f_equal (λ m : gmap string (list string), m !! "c")) in H.
    vm_compute in H. discriminate.
  - vm_compute. discriminate.
Defined.

Lemma design_matrix_from_empty_set_witness :
  design_matrix_from id Inputs.design (Some [("c", ∅)])
  = Ok {| index := []; ncols := 2; data := [] |}.
Proof.
  apply (design_matrix_from_empty_set id Inputs.design "c" ["a"; "z"]).
  vm_compute. reflexivity.
Defined.


Lemma design_matrix_from_default_one_hot_witness :
  ∃ f, design_matrix_from id Inputs.design None = Ok f
       ∧ ∀ i cat row, rows_of "c" f !! i = Some (cat, row) →
           row !! 1%nat = Some (if decide (cat = "z") then 1 else 0).
Proof.
  destruct (design_matrix_from_default_one_hot id Inputs.design) as (f & Hf & H).
  - intros Hempty.
    apply (f_equal (λ m : gmap string (list string), m !! "c")) in Hempty.
    vm_compute in Hempty. discriminate.
  - exists f. split; [exact Hf|]. intros i cat row Hrow.
    destruct (H "c" ["a"; "z"]) as (_ & _ & Hone); [vm_compute; reflexivity|].
    apply (Hone 1%nat "z" i cat row); [reflexivity|exact Hrow].
Defined.

Lemma patch_labels_dense_witness :
  ∃ m : nat, ∀ r, r ∈ [0; 0; 0; 0; 1; 0; 0; 0; 0] ↔ 0 ≤ r < Z.of_nat m.
Proof.
  apply (patch_labels_dense fill_holes id Inputs.interior_slide 0
           {| Slide.image := ();
              Slide.label := [[0; 0; 0]; [0; 1; 0]; [0; 0; 0]];
              Slide.data := [[3]];
              Slide.type := "ST" |}).
  vm_compute. reflexivity.
Defined.

Lemma patch_rows_aligned_witness :
  ∃ k : nat,
    [[0; 0; 0]; [0; 1; 0]; [0; 0; 0]] !! 1%nat ≫= (λ row, row !! 1%nat)
    = Some (Z.of_nat k + 1)
    ∧ [[3]] !! k = Slide._data Inputs.interior_slide !! 1%nat
    ∧ is_Some ([[3]] !! k).
Proof.
  apply (patch_rows_aligned fill_holes id Inputs.interior_slide 0
           ((), [[0; 0; 0]; [0; 2; 0]; [0; 0; 0]])
           {| Slide.image := ();
              Slide.label := [[0; 0; 0]; [0; 1; 0]; [0; 0; 0]];
              Slide.data := [[3]];
              Slide.type := "ST" |} eq_refl) with (i := 1%nat) (j := 1%nat)
                                                 (x := 2).
  - intros y Hy. vm_compute in Hy.
    repeat (apply elem_of_cons in Hy as [->|Hy]; [lia|]).
    by apply elem_of_nil in Hy.
  - decide_by_compute.
  - vm_compute. reflexivity.
  - vm_compute. reflexivity.
  - lia.
Defined.

Lemma getitem_empty_dataset_witness :
  Slide.__getitem__ fill_holes id 1 MoreInputs.empty_slide 0
  = Some (Raise ZeroDivisionError).
Proof.
  apply (getitem_empty_dataset fill_holes id MoreInputs.empty_slide 0 0).
  - reflexivity.
  - vm_compute. reflexivity.
Defined.

Lemma getitem_id_without_row_witness :
  Slide.__getitem__ fill_holes id 1 MoreInputs.short_slide 0
  = Some (Raise IndexError).
Proof.
  apply (getitem_id_without_row fill_holes id MoreInputs.short_slide 0 [3] 3 0).
  - vm_compute. reflexivity.
  - apply list_elem_of_singleton. reflexivity.
  - simpl. lia.
Defined.

Lemma restore_state_missing_iteration_witness :
  restore_state Inputs.load_state_dict Inputs.load_state_dict
    Inputs.load_other Inputs.state_keys Inputs.load_key 0 [10; 20] "ckpt"
    {[ "ckpt" := MoreInputs.checkpoint ]}
  = ((7, [1; 20]), Raise (KeyError "iteration")).
Proof.
  apply (restore_state_missing_iteration
           Inputs.load_state_dict Inputs.load_state_dict
           Inputs.load_other Inputs.state_keys Inputs.load_key
           0 7 [10; 20] [1; 20] "ckpt" {[ "ckpt" := MoreInputs.checkpoint ]}
           MoreInputs.checkpoint 7 [1]).
  - vm_compute. reflexivity.
  - vm_compute. reflexivity.
  - vm_compute. reflexivity.
  - vm_compute. reflexivity.
  - reflexivity.
  - reflexivity.
Defined.

Lemma center_crop_elements_witness :
  nd_get [1%nat; 0%nat] (center_crop MoreInputs.matrix [None; Some 2])
  = nd_get [1%nat; 1%nat] MoreInputs.matrix.
Proof.
  destruct (center_crop_elements MoreInputs.matrix [None; Some 2]) as [_ H].
  - reflexivity.
  - split; [simpl; lia|].
    intros [|[|k]] a b Ha Hb; simpl in Ha, Hb; try discriminate.
    injection Ha as <-. injection Hb as <-. lia.
  - apply (H [1%nat; 0%nat]). split; [simpl; lia|].
    intros [|[|k]] i b Hi Hb; simpl in Hi, Hb; try discriminate.
    injection Hi as <-. injection Hb as <-. lia.
Defined.

Lemma center_crop_own_shape_witness :
  center_crop MoreInputs.matrix [Some 2; Some 4] = MoreInputs.matrix.
Proof.
  apply (center_crop_own_shape MoreInputs.matrix). reflexivity.
Defined.

Lemma center_crop_larger_target_witness :
  center_crop (Array [Scalar 1; Scalar 2; Scalar 3]) [Some 4]
  = Array [Scalar 3].
Proof.
  apply (center_crop_larger_target [Scalar 1; Scalar 2; Scalar 3] 4).
  simpl. lia.
Defined.

Lemma chunks_of_chunks_witness :
  length (chunks_of 2 [1; 2; 3]) = 2%nat
  ∧ ∀ i c, chunks_of 2 [1; 2; 3] !! i = Some c →
      c = take 2 (drop (i * 2) [1; 2; 3]) ∧ (0 < length c ≤ 2)%nat.
Proof. apply (chunks_of_chunks 2 [1; 2; 3]). lia. Defined.

Lemma forward_crop_shape_witness :
  has_shape [1; 1; 1; 1]%nat
    (center_crop MoreInputs.decoded (forward_shape 1 1)) = true.
Proof.
  apply (forward_crop_shape MoreInputs.decoded 1 1 1 1).
  - lia.
  - lia.
  - vm_compute. reflexivity.
  - vm_compute. reflexivity.
Defined.
